(** * Digital-will canister: a shallow embedding of
    [src/dfinity_js_backend/src/index.ts] and the properties of its
    record-keeping operations.

    The canister keeps five [StableBTreeMap]s keyed by [text] identifiers.
    A stable map stores serialised copies: [get] hands back a fresh value and
    [insert] stores a copy, so nothing is shared between a stored record and
    the local object a method works on.  Each map is modelled as a
    [gmap string _]; a method is a computation in a small state monad over
    the five maps.  The two external calls a method makes, [uuidv4()] and
    [ic.time()], are read from an environment record given to the call. *)

From Stdlib Require Import NArith.
From stdpp Require Import base option strings list gmap fin_maps.

Open Scope string_scope.
Open Scope list_scope.

(** ** Candid types *)

Abbreviation text := string (only parsing).
Abbreviation nat64 := N (only parsing).

(** The Candid [Null] type has the single value [null]. *)
Inductive Null : Type := null.

(** [Result(T, text)]: either [Ok] with a value or [Err] with a message. *)
Inductive Result (A : Type) : Type :=
| Ok (value : A)
| Err (message : text).
Arguments Ok {A} value.
Arguments Err {A} message.

(** ** Records *)

Module User.
Record t : Type := mk {
  id : text;
  name : text;
  email : text;
  createdAt : nat64;
}.
End User.

Module Asset.
Record t : Type := mk {
  id : text;
  willId : text;
  name : text;
  value : nat64;
  createdAt : nat64;
}.
End Asset.

Module Beneficiary.
Record t : Type := mk {
  id : text;
  willId : text;
  name : text;
  share : nat64;
  createdAt : nat64;
}.
End Beneficiary.

Module Will.
Record t : Type := mk {
  id : text;
  userId : text;
  executorId : text;
  assets : list Asset.t;
  beneficiaries : list Beneficiary.t;
  createdAt : nat64;
  isExecuted : bool;
}.

(** [will.assets.push(asset)] on the local copy of a will. *)
Definition push_asset (asset : Asset.t) (will : t) : t :=
  {| id := id will; userId := userId will; executorId := executorId will;
     assets := assets will ++ [asset];
     beneficiaries := beneficiaries will;
     createdAt := createdAt will; isExecuted := isExecuted will |}.

(** [will.beneficiaries.push(beneficiary)]. *)
Definition push_beneficiary (beneficiary : Beneficiary.t) (will : t) : t :=
  {| id := id will; userId := userId will; executorId := executorId will;
     assets := assets will;
     beneficiaries := beneficiaries will ++ [beneficiary];
     createdAt := createdAt will; isExecuted := isExecuted will |}.

(** [will.executorId = executorId]. *)
Definition set_executorId (e : text) (will : t) : t :=
  {| id := id will; userId := userId will; executorId := e;
     assets := assets will;
     beneficiaries := beneficiaries will;
     createdAt := createdAt will; isExecuted := isExecuted will |}.
End Will.

Module Executor.
Record t : Type := mk {
  id : text;
  name : text;
  contact : text;
  createdAt : nat64;
}.
End Executor.

(** ** Payloads *)

Module UserPayload.
Record t : Type := mk { name : text; email : text }.
End UserPayload.

Module WillPayload.
Record t : Type := mk { userId : text; executorId : text }.
End WillPayload.

Module AssetPayload.
Record t : Type := mk { willId : text; name : text; value : nat64 }.
End AssetPayload.

Module BeneficiaryPayload.
Record t : Type := mk { willId : text; name : text; share : nat64 }.
End BeneficiaryPayload.

Module ExecutorPayload.
Record t : Type := mk { name : text; contact : text }.
End ExecutorPayload.

Module AssignExecutorPayload.
Record t : Type := mk { willId : text; executorId : text }.
End AssignExecutorPayload.

(** ** Storage *)

(** The five stable maps (memory ids 0 to 4 in the source). *)
Record State : Type := mkState {
  users : gmap string User.t;
  wills : gmap string Will.t;
  executors : gmap string Executor.t;
  assetsMap : gmap string Asset.t;
  beneficiariesMap : gmap string Beneficiary.t;
}.

(** The state of a freshly installed canister: every map is empty. *)
Definition init : State :=
  {| users := ∅; wills := ∅; executors := ∅;
     assetsMap := ∅; beneficiariesMap := ∅ |}.

(** What the outside world supplies to one update call: the identifier
    [uuidv4()] returns and the timestamp [ic.time()] returns. *)
Record Env : Type := mkEnv {
  uuidv4 : text;
  time : nat64;
}.

(** ** The state monad of canister methods *)

Definition M (A : Type) : Type := State → A * State.

#[global] Instance M_ret : MRet M := λ A a st, (a, st).
#[global] Instance M_bind : MBind M :=
  λ A B f m st, let '(a, st') := m st in f a st'.

(** A handle on one of the five maps: how to read it from the state and how
    to write it back. *)
Record StableBTreeMap (V : Type) : Type := mkMap {
  contents : State → gmap string V;
  replace : gmap string V → State → State;
}.
Arguments contents {V} _ _.
Arguments replace {V} _ _ _.

Definition usersStorage : StableBTreeMap User.t :=
  {| contents := users;
     replace := λ m st, {| users := m; wills := wills st;
       executors := executors st; assetsMap := assetsMap st;
       beneficiariesMap := beneficiariesMap st |} |}.

Definition willsStorage : StableBTreeMap Will.t :=
  {| contents := wills;
     replace := λ m st, {| users := users st; wills := m;
       executors := executors st; assetsMap := assetsMap st;
       beneficiariesMap := beneficiariesMap st |} |}.

Definition executorsStorage : StableBTreeMap Executor.t :=
  {| contents := executors;
     replace := λ m st, {| users := users st; wills := wills st;
       executors := m; assetsMap := assetsMap st;
       beneficiariesMap := beneficiariesMap st |} |}.

Definition assetsStorage : StableBTreeMap Asset.t :=
  {| contents := assetsMap;
     replace := λ m st, {| users := users st; wills := wills st;
       executors := executors st; assetsMap := m;
       beneficiariesMap := beneficiariesMap st |} |}.

Definition beneficiariesStorage : StableBTreeMap Beneficiary.t :=
  {| contents := beneficiariesMap;
     replace := λ m st, {| users := users st; wills := wills st;
       executors := executors st; assetsMap := assetsMap st;
       beneficiariesMap := m |} |}.

(** [map.get(key)]: an [Opt], [None] for a missing key. *)
Definition get {V} (map : StableBTreeMap V) (key : text) : M (option V) :=
  λ st, (contents map st !! key, st).

(** [map.insert(key, value)]: inserts or overwrites. *)
Definition insert {V} (map : StableBTreeMap V) (key : text) (value : V) : M unit :=
  λ st, (tt, replace map (<[key := value]> (contents map st)) st).

(** [map.values()]: all stored records.  The stable map returns them in
    the order of its B-tree keys; this model lists them in the order of
    [map_to_list], which is another one.  The order is therefore not
    modelled: every statement about a list that [values] returns is made
    up to permutation, by membership or by length. *)
Definition values {V} (map : StableBTreeMap V) : M (list V) :=
  λ st, ((map_to_list (contents map st)).*2, st).

(** JavaScript [!s] on a string: true exactly for the empty string. *)
Definition js_not (s : text) : bool :=
  match s with
  | EmptyString => true
  | String _ _ => false
  end.

(** ** The canister methods *)

Definition createUser (ic : Env) (payload : UserPayload.t) : M (Result User.t) :=
  if js_not (UserPayload.name payload) || js_not (UserPayload.email payload)
  then mret (Err "Name and email are required.")
  else
    let id := uuidv4 ic in
    let user := {| User.id := id;
                   User.name := UserPayload.name payload;
                   User.email := UserPayload.email payload;
                   User.createdAt := time ic |} in
    insert usersStorage id user ;;
    mret (Ok user).

Definition createExecutor (ic : Env) (payload : ExecutorPayload.t)
  : M (Result Executor.t) :=
  if js_not (ExecutorPayload.name payload)
     || js_not (ExecutorPayload.contact payload)
  then mret (Err "Name and contact are required.")
  else
    let id := uuidv4 ic in
    let executor := {| Executor.id := id;
                       Executor.name := ExecutorPayload.name payload;
                       Executor.contact := ExecutorPayload.contact payload;
                       Executor.createdAt := time ic |} in
    insert executorsStorage id executor ;;
    mret (Ok executor).

Definition createWill (ic : Env) (payload : WillPayload.t) : M (Result Will.t) :=
  userOpt ← get usersStorage (WillPayload.userId payload);
  match userOpt with
  | None => mret (Err "User not found.")
  | Some _ =>
    executorOpt ← get executorsStorage (WillPayload.executorId payload);
    match executorOpt with
    | None => mret (Err "Executor not found.")
    | Some _ =>
      let id := uuidv4 ic in
      let will := {| Will.id := id;
                     Will.userId := WillPayload.userId payload;
                     Will.executorId := WillPayload.executorId payload;
                     Will.assets := [];
                     Will.beneficiaries := [];
                     Will.createdAt := time ic;
                     Will.isExecuted := false |} in
      insert willsStorage id will ;;
      mret (Ok will)
    end
  end.

Definition addAsset (ic : Env) (payload : AssetPayload.t) : M (Result Null) :=
  willOpt ← get willsStorage (AssetPayload.willId payload);
  match willOpt with
  | None => mret (Err "Will not found.")
  | Some will =>
    let assetId := uuidv4 ic in
    let asset := {| Asset.id := assetId;
                    Asset.willId := AssetPayload.willId payload;
                    Asset.name := AssetPayload.name payload;
                    Asset.value := AssetPayload.value payload;
                    Asset.createdAt := time ic |} in
    let will := Will.push_asset asset will in
    insert willsStorage (AssetPayload.willId payload) will ;;
    insert assetsStorage assetId asset ;;
    mret (Ok null)
  end.

Definition addBeneficiary (ic : Env) (payload : BeneficiaryPayload.t)
  : M (Result Null) :=
  willOpt ← get willsStorage (BeneficiaryPayload.willId payload);
  match willOpt with
  | None => mret (Err "Will not found.")
  | Some will =>
    let beneficiaryId := uuidv4 ic in
    let beneficiary :=
      {| Beneficiary.id := beneficiaryId;
         Beneficiary.willId := BeneficiaryPayload.willId payload;
         Beneficiary.name := BeneficiaryPayload.name payload;
         Beneficiary.share := BeneficiaryPayload.share payload;
         Beneficiary.createdAt := time ic |} in
    let will := Will.push_beneficiary beneficiary will in
    insert willsStorage (BeneficiaryPayload.willId payload) will ;;
    insert beneficiariesStorage beneficiaryId beneficiary ;;
    mret (Ok null)
  end.

Definition assignExecutor (payload : AssignExecutorPayload.t) : M (Result Null) :=
  willOpt ← get willsStorage (AssignExecutorPayload.willId payload);
  match willOpt with
  | None => mret (Err "Will not found.")
  | Some will =>
    executorOpt ← get executorsStorage (AssignExecutorPayload.executorId payload);
    match executorOpt with
    | None => mret (Err "Executor not found.")
    | Some _ =>
      let will :=
        Will.set_executorId (AssignExecutorPayload.executorId payload) will in
      insert willsStorage (AssignExecutorPayload.willId payload) will ;;
      mret (Ok null)
    end
  end.

Definition getUser (userId : text) : M (Result User.t) :=
  userOpt ← get usersStorage userId;
  match userOpt with
  | None => mret (Err "User not found.")
  | Some user => mret (Ok user)
  end.

Definition getAllUsers : M (Result (list User.t)) :=
  users ← values usersStorage;
  if decide (length users = 0) then mret (Err "No users found.")
  else mret (Ok users).

Definition getExecutor (executorId : text) : M (Result Executor.t) :=
  executorOpt ← get executorsStorage executorId;
  match executorOpt with
  | None => mret (Err "Executor not found.")
  | Some executor => mret (Ok executor)
  end.

Definition getAllExecutors : M (Result (list Executor.t)) :=
  executors ← values executorsStorage;
  if decide (length executors = 0) then mret (Err "No executors found.")
  else mret (Ok executors).

Definition getWill (willId : text) : M (Result Will.t) :=
  willOpt ← get willsStorage willId;
  match willOpt with
  | None => mret (Err "Will not found.")
  | Some will => mret (Ok will)
  end.

Definition getAllWills : M (Result (list Will.t)) :=
  wills ← values willsStorage;
  if decide (length wills = 0) then mret (Err "No wills found.")
  else mret (Ok wills).

(** ** The canister as a whole *)

(** One message to the canister: the method, its argument, and for an update
    method the values the external calls return while it runs. *)
Inductive Call : Type :=
| CreateUser (ic : Env) (payload : UserPayload.t)
| CreateExecutor (ic : Env) (payload : ExecutorPayload.t)
| CreateWill (ic : Env) (payload : WillPayload.t)
| AddAsset (ic : Env) (payload : AssetPayload.t)
| AddBeneficiary (ic : Env) (payload : BeneficiaryPayload.t)
| AssignExecutor (payload : AssignExecutorPayload.t)
| GetUser (userId : text)
| GetAllUsers
| GetExecutor (executorId : text)
| GetAllExecutors
| GetWill (willId : text)
| GetAllWills.

(** The reply, one constructor per declared return type. *)
Inductive Reply : Type :=
| UserReply (r : Result User.t)
| ExecutorReply (r : Result Executor.t)
| WillReply (r : Result Will.t)
| NullReply (r : Result Null)
| UsersReply (r : Result (list User.t))
| ExecutorsReply (r : Result (list Executor.t))
| WillsReply (r : Result (list Will.t)).

Definition call (c : Call) : M Reply :=
  match c with
  | CreateUser ic payload => r ← createUser ic payload; mret (UserReply r)
  | CreateExecutor ic payload => r ← createExecutor ic payload; mret (ExecutorReply r)
  | CreateWill ic payload => r ← createWill ic payload; mret (WillReply r)
  | AddAsset ic payload => r ← addAsset ic payload; mret (NullReply r)
  | AddBeneficiary ic payload => r ← addBeneficiary ic payload; mret (NullReply r)
  | AssignExecutor payload => r ← assignExecutor payload; mret (NullReply r)
  | GetUser userId => r ← getUser userId; mret (UserReply r)
  | GetAllUsers => r ← getAllUsers; mret (UsersReply r)
  | GetExecutor executorId => r ← getExecutor executorId; mret (ExecutorReply r)
  | GetAllExecutors => r ← getAllExecutors; mret (ExecutorsReply r)
  | GetWill willId => r ← getWill willId; mret (WillReply r)
  | GetAllWills => r ← getAllWills; mret (WillsReply r)
  end.

(** The state after a sequence of messages, oldest first. *)
Fixpoint exec (cs : list Call) (st : State) : State :=
  match cs with
  | [] => st
  | c :: cs' => exec cs' (call c st).2
  end.

(** A state the canister can be in: [init] followed by any messages. *)
Definition reachable (st : State) : Prop := ∃ cs, st = exec cs init.

(** The identifier generator's contract: the identifier minted for a new
    record is not already a key of the map the record goes into. *)
Definition fresh (c : Call) (st : State) : Prop :=
  match c with
  | CreateUser ic _ => users st !! uuidv4 ic = None
  | CreateExecutor ic _ => executors st !! uuidv4 ic = None
  | CreateWill ic _ => wills st !! uuidv4 ic = None
  | AddAsset ic _ => assetsMap st !! uuidv4 ic = None
  | AddBeneficiary ic _ => beneficiariesMap st !! uuidv4 ic = None
  | _ => True
  end.

Fixpoint fresh_run (cs : list Call) (st : State) : Prop :=
  match cs with
  | [] => True
  | c :: cs' => fresh c st ∧ fresh_run cs' (call c st).2
  end.

(** ** Error kinds *)

(** The code reports every failure as [Err] with a message; the three kinds
    of failure are told apart by the message. *)
Inductive ErrorKind : Type :=
| ValidationError
| NotFoundError
| EmptyCollectionError.

Definition error_kind (message : text) : option ErrorKind :=
  if decide (message = "Name and email are required.") then Some ValidationError
  else if decide (message = "Name and contact are required.") then Some ValidationError
  else if decide (message = "User not found.") then Some NotFoundError
  else if decide (message = "Executor not found.") then Some NotFoundError
  else if decide (message = "Will not found.") then Some NotFoundError
  else if decide (message = "No users found.") then Some EmptyCollectionError
  else if decide (message = "No executors found.") then Some EmptyCollectionError
  else if decide (message = "No wills found.") then Some EmptyCollectionError
  else None.

Definition fails_with {A} (kind : ErrorKind) (r : Result A) : Prop :=
  match r with
  | Ok _ => False
  | Err message => error_kind message = Some kind
  end.

Definition is_Err {A} (r : Result A) : bool :=
  match r with
  | Ok _ => false
  | Err _ => true
  end.

Definition failed (r : Reply) : bool :=
  match r with
  | UserReply r => is_Err r
  | ExecutorReply r => is_Err r
  | WillReply r => is_Err r
  | NullReply r => is_Err r
  | UsersReply r => is_Err r
  | ExecutorsReply r => is_Err r
  | WillsReply r => is_Err r
  end.

(** Whitespace-only text (the empty string included), over the ASCII
    white-space characters: tab, line feed, vertical tab, form feed,
    carriage return and space. *)
Definition is_whitespace (c : Ascii.ascii) : bool :=
  let n := Ascii.nat_of_ascii c in
  (Nat.leb 9 n && Nat.leb n 13) || Nat.eqb n 32.

Fixpoint blank (s : text) : bool :=
  match s with
  | EmptyString => true
  | String c s' => is_whitespace c && blank s'
  end.

(** ** A run used to exercise the statements below

    The end-to-end scenario: a user, an executor, a will, one asset, one
    beneficiary, a second executor, and the will reassigned to it. *)
Definition scenario : list Call :=
  [ CreateUser (mkEnv "u-1" 10) (UserPayload.mk "Alice" "alice@x.com");
    CreateExecutor (mkEnv "e-1" 11) (ExecutorPayload.mk "Bob" "bob@x.com");
    CreateWill (mkEnv "w-1" 12) (WillPayload.mk "u-1" "e-1");
    AddAsset (mkEnv "a-1" 13) (AssetPayload.mk "w-1" "House" 500000);
    AddBeneficiary (mkEnv "b-1" 14) (BeneficiaryPayload.mk "w-1" "Carol" 100);
    CreateExecutor (mkEnv "e-2" 15) (ExecutorPayload.mk "Dan" "dan@x.com");
    AssignExecutor (AssignExecutorPayload.mk "w-1" "e-2") ].

Definition scenario_state : State := exec scenario init.

(** ** Specification vocabulary *)

(** A stored record of any of the five kinds. *)
Inductive Entity : Type :=
| UserEntity (user : User.t)
| ExecutorEntity (executor : Executor.t)
| WillEntity (will : Will.t)
| AssetEntity (asset : Asset.t)
| BeneficiaryEntity (beneficiary : Beneficiary.t).

(** The records a reply hands to the caller: none for an error and none for
    [Ok(null)]. *)
Definition carried (r : Reply) : list Entity :=
  match r with
  | UserReply (Ok user) => [UserEntity user]
  | ExecutorReply (Ok executor) => [ExecutorEntity executor]
  | WillReply (Ok will) => [WillEntity will]
  | UsersReply (Ok l) => UserEntity <$> l
  | ExecutorsReply (Ok l) => ExecutorEntity <$> l
  | WillsReply (Ok l) => WillEntity <$> l
  | _ => []
  end.

(** The user a call creates: the record a successful [createUser]
    returns. *)
Definition created_user (c : Call) (st : State) : list User.t :=
  match c with
  | CreateUser ic payload =>
      match (createUser ic payload st).1 with
      | Ok user => [user]
      | Err _ => []
      end
  | _ => []
  end.

(** The users created during a run, oldest first. *)
Fixpoint created_users (cs : list Call) (st : State) : list User.t :=
  match cs with
  | [] => []
  | c :: cs' => created_user c st ++ created_users cs' (call c st).2
  end.

(** The shape shared by the three getAll* methods: an error for an empty
    collection, the stored records otherwise. *)
Definition listing {V} (message : text) (m : gmap string V) : Result (list V) :=
  match (map_to_list m).*2 with
  | [] => Err message
  | l => Ok l
  end.

(** The records that appear in a map under keys it did not have before. *)
Definition new_records {V} (old new : gmap string V) : list V :=
  (map_to_list (new ∖ old)).*2.

(** The assets stored into the standalone assets collection during a run,
    in the order in which they were inserted. *)
Fixpoint assets_log (cs : list Call) (st : State) : list Asset.t :=
  match cs with
  | [] => []
  | c :: cs' =>
      new_records (assetsMap st) (assetsMap (call c st).2)
      ++ assets_log cs' (call c st).2
  end.

(** The beneficiaries stored into the standalone beneficiaries collection
    during a run, in insertion order. *)
Fixpoint beneficiaries_log (cs : list Call) (st : State) : list Beneficiary.t :=
  match cs with
  | [] => []
  | c :: cs' =>
      new_records (beneficiariesMap st) (beneficiariesMap (call c st).2)
      ++ beneficiaries_log cs' (call c st).2
  end.

(** Every stored will has [isExecuted = false]. *)
Definition never_executed (st : State) : Prop :=
  ∀ k will, wills st !! k = Some will → Will.isExecuted will = false.

(** The dual-write invariant, relative to the insertion logs [la] and [lb]
    of the two standalone collections. *)
Record consistent (st : State) (la : list Asset.t) (lb : list Beneficiary.t)
  : Prop := mkConsistent {
  will_keyed : ∀ k will, wills st !! k = Some will → Will.id will = k;
  asset_keyed : ∀ k asset, assetsMap st !! k = Some asset → Asset.id asset = k;
  beneficiary_keyed :
    ∀ k beneficiary,
      beneficiariesMap st !! k = Some beneficiary →
      Beneficiary.id beneficiary = k;
  assets_embedded :
    ∀ k will, wills st !! k = Some will →
      Will.assets will = filter (λ a, Asset.willId a = k) la;
  beneficiaries_embedded :
    ∀ k will, wills st !! k = Some will →
      Will.beneficiaries will = filter (λ b, Beneficiary.willId b = k) lb;
  assets_owned : ∀ asset, asset ∈ la → is_Some (wills st !! Asset.willId asset);
  beneficiaries_owned :
    ∀ beneficiary, beneficiary ∈ lb →
      is_Some (wills st !! Beneficiary.willId beneficiary);
  assets_stored : (map_to_list (assetsMap st)).*2 ≡ₚ la;
  beneficiaries_stored : (map_to_list (beneficiariesMap st)).*2 ≡ₚ lb;
}.

(** ** The effect of a call on the storage *)

(** What a call can do to the five maps: nothing, or the writes of one
    successful update method, with what the method has checked before
    writing. *)
Inductive effect (st : State) : Call → State → Prop :=
| effect_none c : effect st c st
| effect_createUser ic payload user :
    User.id user = uuidv4 ic →
    effect st (CreateUser ic payload)
      {| users := <[uuidv4 ic := user]> (users st); wills := wills st;
         executors := executors st; assetsMap := assetsMap st;
         beneficiariesMap := beneficiariesMap st |}
| effect_createExecutor ic payload executor :
    Executor.id executor = uuidv4 ic →
    effect st (CreateExecutor ic payload)
      {| users := users st; wills := wills st;
         executors := <[uuidv4 ic := executor]> (executors st);
         assetsMap := assetsMap st;
         beneficiariesMap := beneficiariesMap st |}
| effect_createWill ic payload will :
    Will.id will = uuidv4 ic →
    Will.assets will = [] →
    Will.beneficiaries will = [] →
    is_Some (users st !! Will.userId will) →
    is_Some (executors st !! Will.executorId will) →
    effect st (CreateWill ic payload)
      {| users := users st; wills := <[uuidv4 ic := will]> (wills st);
         executors := executors st; assetsMap := assetsMap st;
         beneficiariesMap := beneficiariesMap st |}
| effect_addAsset ic payload will asset :
    wills st !! AssetPayload.willId payload = Some will →
    Asset.id asset = uuidv4 ic →
    Asset.willId asset = AssetPayload.willId payload →
    effect st (AddAsset ic payload)
      {| users := users st;
         wills := <[AssetPayload.willId payload := Will.push_asset asset will]>
                    (wills st);
         executors := executors st;
         assetsMap := <[uuidv4 ic := asset]> (assetsMap st);
         beneficiariesMap := beneficiariesMap st |}
| effect_addBeneficiary ic payload will beneficiary :
    wills st !! BeneficiaryPayload.willId payload = Some will →
    Beneficiary.id beneficiary = uuidv4 ic →
    Beneficiary.willId beneficiary = BeneficiaryPayload.willId payload →
    effect st (AddBeneficiary ic payload)
      {| users := users st;
         wills := <[BeneficiaryPayload.willId payload :=
                      Will.push_beneficiary beneficiary will]> (wills st);
         executors := executors st;
         assetsMap := assetsMap st;
         beneficiariesMap :=
           <[uuidv4 ic := beneficiary]> (beneficiariesMap st) |}
| effect_assignExecutor payload will :
    wills st !! AssignExecutorPayload.willId payload = Some will →
    is_Some (executors st !! AssignExecutorPayload.executorId payload) →
    effect st (AssignExecutor payload)
      {| users := users st;
         wills := <[AssignExecutorPayload.willId payload :=
                      Will.set_executorId
                        (AssignExecutorPayload.executorId payload) will]>
                    (wills st);
         executors := executors st; assetsMap := assetsMap st;
         beneficiariesMap := beneficiariesMap st |}.

(** Every record is stored under its own [id]. *)
Record keyed (st : State) : Prop := mkKeyed {
  keyed_users : ∀ k user, users st !! k = Some user → User.id user = k;
  keyed_executors :
    ∀ k executor, executors st !! k = Some executor → Executor.id executor = k;
  keyed_wills : ∀ k will, wills st !! k = Some will → Will.id will = k;
  keyed_assets : ∀ k asset, assetsMap st !! k = Some asset → Asset.id asset = k;
  keyed_beneficiaries :
    ∀ k beneficiary,
      beneficiariesMap st !! k = Some beneficiary →
      Beneficiary.id beneficiary = k;
}.

(** Referential integrity: what a stored record refers to exists. *)
Record referenced (st : State) : Prop := mkReferenced {
  will_user :
    ∀ k will, wills st !! k = Some will →
      is_Some (users st !! Will.userId will);
  will_executor :
    ∀ k will, wills st !! k = Some will →
      is_Some (executors st !! Will.executorId will);
  asset_will :
    ∀ k asset, assetsMap st !! k = Some asset →
      is_Some (wills st !! Asset.willId asset);
  beneficiary_will :
    ∀ k beneficiary, beneficiariesMap st !! k = Some beneficiary →
      is_Some (wills st !! Beneficiary.willId beneficiary);
  embedded_asset_will :
    ∀ k will asset, wills st !! k = Some will →
      asset ∈ Will.assets will → Asset.willId asset = k;
  embedded_beneficiary_will :
    ∀ k will beneficiary, wills st !! k = Some will →
      beneficiary ∈ Will.beneficiaries will →
      Beneficiary.willId beneficiary = k;
}.

(** The executor a call creates: the record a successful [createExecutor]
    returns. *)
Definition created_executor (c : Call) (st : State) : list Executor.t :=
  match c with
  | CreateExecutor ic payload =>
      match (createExecutor ic payload st).1 with
      | Ok executor => [executor]
      | Err _ => []
      end
  | _ => []
  end.

(** The executors created during a run, oldest first. *)
Fixpoint created_executors (cs : list Call) (st : State) : list Executor.t :=
  match cs with
  | [] => []
  | c :: cs' => created_executor c st ++ created_executors cs' (call c st).2
  end.

(** The methods declared with [query]. *)
Definition is_query (c : Call) : bool :=
  match c with
  | GetUser _ | GetAllUsers | GetExecutor _ | GetAllExecutors
  | GetWill _ | GetAllWills => true
  | _ => false
  end.

(** The message of an error reply. *)
Definition reply_message (r : Reply) : option text :=
  let message {A} (r : Result A) :=
    match r with
    | Ok _ => None
    | Err message => Some message
    end in
  match r with
  | UserReply r => message r
  | ExecutorReply r => message r
  | WillReply r => message r
  | NullReply r => message r
  | UsersReply r => message r
  | ExecutorsReply r => message r
  | WillsReply r => message r
  end.

(** ** Two runs of the model *)

Example createUser_init :
  createUser (mkEnv "u1" 7) (UserPayload.mk "Alice" "alice@x.com") init
  = (Ok (User.mk "u1" "Alice" "alice@x.com" 7),
     {| users := {[ "u1" := User.mk "u1" "Alice" "alice@x.com" 7 ]};
        wills := ∅; executors := ∅; assetsMap := ∅; beneficiariesMap := ∅ |}).
Proof. reflexivity. Qed.

Example scenario_getWill :
  (getWill "w-1" scenario_state).1
  = Ok {| Will.id := "w-1"; Will.userId := "u-1"; Will.executorId := "e-2";
          Will.assets := [Asset.mk "a-1" "w-1" "House" 500000 13];
          Will.beneficiaries := [Beneficiary.mk "b-1" "w-1" "Carol" 100 14];
          Will.createdAt := 12; Will.isExecuted := false |}.
Proof. vm_compute. reflexivity. Qed.

(** ** What each method does, as one equation per method *)

Lemma createUser_eq ic payload st :
  createUser ic payload st =
  if js_not (UserPayload.name payload) || js_not (UserPayload.email payload)
  then (Err "Name and email are required.", st)
  else
    let user := {| User.id := uuidv4 ic;
                   User.name := UserPayload.name payload;
                   User.email := UserPayload.email payload;
                   User.createdAt := time ic |} in
    (Ok user,
     {| users := <[uuidv4 ic := user]> (users st); wills := wills st;
        executors := executors st; assetsMap := assetsMap st;
        beneficiariesMap := beneficiariesMap st |}).
Proof. unfold createUser. by destruct (_ || _). Qed.

Lemma createExecutor_eq ic payload st :
  createExecutor ic payload st =
  if js_not (ExecutorPayload.name payload)
     || js_not (ExecutorPayload.contact payload)
  then (Err "Name and contact are required.", st)
  else
    let executor := {| Executor.id := uuidv4 ic;
                       Executor.name := ExecutorPayload.name payload;
                       Executor.contact := ExecutorPayload.contact payload;
                       Executor.createdAt := time ic |} in
    (Ok executor,
     {| users := users st; wills := wills st;
        executors := <[uuidv4 ic := executor]> (executors st);
        assetsMap := assetsMap st;
        beneficiariesMap := beneficiariesMap st |}).
Proof. unfold createExecutor. by destruct (_ || _). Qed.

Lemma createWill_eq ic payload st :
  createWill ic payload st =
  match users st !! WillPayload.userId payload with
  | None => (Err "User not found.", st)
  | Some _ =>
    match executors st !! WillPayload.executorId payload with
    | None => (Err "Executor not found.", st)
    | Some _ =>
      let will := {| Will.id := uuidv4 ic;
                     Will.userId := WillPayload.userId payload;
                     Will.executorId := WillPayload.executorId payload;
                     Will.assets := [];
                     Will.beneficiaries := [];
                     Will.createdAt := time ic;
                     Will.isExecuted := false |} in
      (Ok will,
       {| users := users st; wills := <[uuidv4 ic := will]> (wills st);
          executors := executors st; assetsMap := assetsMap st;
          beneficiariesMap := beneficiariesMap st |})
    end
  end.
Proof.
  unfold createWill, mbind, M_bind, get; cbn.
  destruct (users st !! _); [|done].
  by destruct (executors st !! _).
Qed.

Lemma addAsset_eq ic payload st :
  addAsset ic payload st =
  match wills st !! AssetPayload.willId payload with
  | None => (Err "Will not found.", st)
  | Some will =>
    let asset := {| Asset.id := uuidv4 ic;
                    Asset.willId := AssetPayload.willId payload;
                    Asset.name := AssetPayload.name payload;
                    Asset.value := AssetPayload.value payload;
                    Asset.createdAt := time ic |} in
    (Ok null,
     {| users := users st;
        wills := <[AssetPayload.willId payload := Will.push_asset asset will]>
                   (wills st);
        executors := executors st;
        assetsMap := <[uuidv4 ic := asset]> (assetsMap st);
        beneficiariesMap := beneficiariesMap st |})
  end.
Proof.
  unfold addAsset, mbind, M_bind, get; cbn.
  by destruct (wills st !! _).
Qed.

Lemma addBeneficiary_eq ic payload st :
  addBeneficiary ic payload st =
  match wills st !! BeneficiaryPayload.willId payload with
  | None => (Err "Will not found.", st)
  | Some will =>
    let beneficiary :=
      {| Beneficiary.id := uuidv4 ic;
         Beneficiary.willId := BeneficiaryPayload.willId payload;
         Beneficiary.name := BeneficiaryPayload.name payload;
         Beneficiary.share := BeneficiaryPayload.share payload;
         Beneficiary.createdAt := time ic |} in
    (Ok null,
     {| users := users st;
        wills := <[BeneficiaryPayload.willId payload :=
                     Will.push_beneficiary beneficiary will]> (wills st);
        executors := executors st;
        assetsMap := assetsMap st;
        beneficiariesMap := <[uuidv4 ic := beneficiary]> (beneficiariesMap st) |})
  end.
Proof.
  unfold addBeneficiary, mbind, M_bind, get; cbn.
  by destruct (wills st !! _).
Qed.

Lemma assignExecutor_eq payload st :
  assignExecutor payload st =
  match wills st !! AssignExecutorPayload.willId payload with
  | None => (Err "Will not found.", st)
  | Some will =>
    match executors st !! AssignExecutorPayload.executorId payload with
    | None => (Err "Executor not found.", st)
    | Some _ =>
      (Ok null,
       {| users := users st;
          wills := <[AssignExecutorPayload.willId payload :=
                       Will.set_executorId
                         (AssignExecutorPayload.executorId payload) will]>
                     (wills st);
          executors := executors st; assetsMap := assetsMap st;
          beneficiariesMap := beneficiariesMap st |})
    end
  end.
Proof.
  unfold assignExecutor, mbind, M_bind, get; cbn.
  destruct (wills st !! _); [|done].
  by destruct (executors st !! _).
Qed.

Lemma getUser_eq userId st :
  getUser userId st =
  (match users st !! userId with
   | None => Err "User not found."
   | Some user => Ok user
   end, st).
Proof. unfold getUser, mbind, M_bind, get; cbn. by destruct (users st !! _). Qed.

Lemma getExecutor_eq executorId st :
  getExecutor executorId st =
  (match executors st !! executorId with
   | None => Err "Executor not found."
   | Some executor => Ok executor
   end, st).
Proof.
  unfold getExecutor, mbind, M_bind, get; cbn. by destruct (executors st !! _).
Qed.

Lemma getWill_eq willId st :
  getWill willId st =
  (match wills st !! willId with
   | None => Err "Will not found."
   | Some will => Ok will
   end, st).
Proof. unfold getWill, mbind, M_bind, get; cbn. by destruct (wills st !! _). Qed.

Lemma getAllUsers_eq st :
  getAllUsers st = (listing "No users found." (users st), st).
Proof.
  unfold getAllUsers, listing, mbind, M_bind, values; cbn.
  by destruct ((map_to_list (users st)).*2).
Qed.

Lemma getAllExecutors_eq st :
  getAllExecutors st = (listing "No executors found." (executors st), st).
Proof.
  unfold getAllExecutors, listing, mbind, M_bind, values; cbn.
  by destruct ((map_to_list (executors st)).*2).
Qed.

Lemma getAllWills_eq st :
  getAllWills st = (listing "No wills found." (wills st), st).
Proof.
  unfold getAllWills, listing, mbind, M_bind, values; cbn.
  by destruct ((map_to_list (wills st)).*2).
Qed.

(** ** Properties of single calls *)

(** C2. addAsset postcondition: when the will id of the payload is present
    in the wills collection, [addAsset] succeeds, and afterwards [getWill]
    on that id returns a will whose [assets] list is the old list with one
    new asset appended; the asset carries the payload's name and value, and
    the standalone assets collection holds the very same record under the
    asset's id. *)
Theorem addAsset_postcondition ic payload st will :
  wills st !! AssetPayload.willId payload = Some will →
  ∃ st' will' asset,
    addAsset ic payload st = (Ok null, st')
    ∧ getWill (AssetPayload.willId payload) st' = (Ok will', st')
    ∧ Will.assets will' = Will.assets will ++ [asset]
    ∧ asset ∈ Will.assets will'
    ∧ Asset.name asset = AssetPayload.name payload
    ∧ Asset.value asset = AssetPayload.value payload
    ∧ Asset.willId asset = AssetPayload.willId payload
    ∧ Asset.id asset = uuidv4 ic
    ∧ assetsMap st' !! Asset.id asset = Some asset.
Proof.
  intros Hwill. rewrite addAsset_eq, Hwill. cbn zeta.
  set (asset := {| Asset.id := uuidv4 ic;
                   Asset.willId := AssetPayload.willId payload |}).
  eexists _, (Will.push_asset asset will), asset.
  split; [reflexivity|].
  rewrite getWill_eq. cbn [wills assetsMap].
  rewrite !lookup_insert_eq. cbn.
  repeat split. apply elem_of_app. right. by apply list_elem_of_singleton.
Qed.

Lemma addAsset_postcondition_witness :
  ∃ st' will' asset,
    addAsset (mkEnv "a-2" 20) (AssetPayload.mk "w-1" "Car" 10000) scenario_state
      = (Ok null, st')
    ∧ getWill "w-1" st' = (Ok will', st')
    ∧ Will.assets will'
        = [Asset.mk "a-1" "w-1" "House" 500000 13] ++ [asset]
    ∧ asset ∈ Will.assets will'
    ∧ Asset.name asset = "Car"
    ∧ Asset.value asset = 10000%N
    ∧ Asset.willId asset = "w-1"
    ∧ Asset.id asset = "a-2"
    ∧ assetsMap st' !! Asset.id asset = Some asset.
Proof.
  apply (addAsset_postcondition (mkEnv "a-2" 20)
           (AssetPayload.mk "w-1" "Car" 10000) scenario_state
           {| Will.id := "w-1"; Will.userId := "u-1"; Will.executorId := "e-2";
              Will.assets := [Asset.mk "a-1" "w-1" "House" 500000 13];
              Will.beneficiaries := [Beneficiary.mk "b-1" "w-1" "Carol" 100 14];
              Will.createdAt := 12; Will.isExecuted := false |}).
  vm_compute. reflexivity.
Defined.

(** C3. createWill fails with a NotFoundError exactly when the user id is
    absent from the users collection or the executor id is absent from the
    executors collection.  Otherwise it returns a will with empty [assets]
    and [beneficiaries], [isExecuted = false] and the two given
    identifiers, and that will is what the wills collection then holds under
    the new id; the other collections are as before. *)
Theorem createWill_behaviour ic payload st :
  (fails_with NotFoundError (createWill ic payload st).1
   ↔ users st !! WillPayload.userId payload = None
     ∨ executors st !! WillPayload.executorId payload = None)
  ∧ (is_Some (users st !! WillPayload.userId payload) →
     is_Some (executors st !! WillPayload.executorId payload) →
     let will := {| Will.id := uuidv4 ic;
                    Will.userId := WillPayload.userId payload;
                    Will.executorId := WillPayload.executorId payload;
                    Will.assets := [];
                    Will.beneficiaries := [];
                    Will.createdAt := time ic;
                    Will.isExecuted := false |} in
     let st' := (createWill ic payload st).2 in
     (createWill ic payload st).1 = Ok will
     ∧ wills st' = <[uuidv4 ic := will]> (wills st)
     ∧ wills st' !! Will.id will = Some will
     ∧ users st' = users st ∧ executors st' = executors st
     ∧ assetsMap st' = assetsMap st
     ∧ beneficiariesMap st' = beneficiariesMap st).
Proof.
  rewrite createWill_eq.
  destruct (users st !! _) as [u|] eqn:Hu;
    [destruct (executors st !! _) as [e|] eqn:He|]; cbn.
  - split.
    + split; [done|]. intros [?|?]; done.
    + intros _ _. rewrite lookup_insert_eq. done.
  - split.
    + split; [by right|]. intros _. reflexivity.
    + intros _ [? ?]. done.
  - split.
    + split; [by left|]. intros _. reflexivity.
    + intros [? ?]. done.
Qed.

Lemma createWill_behaviour_witness :
  let ic := mkEnv "w-2" 30 in
  let payload := WillPayload.mk "u-1" "e-2" in
  let st := scenario_state in
  is_Some (users st !! "u-1") ∧ is_Some (executors st !! "e-2")
  ∧ (createWill ic payload st).1
    = Ok (Will.mk "w-2" "u-1" "e-2" [] [] 30 false)
  ∧ wills (createWill ic payload st).2 !! "w-2"
    = Some (Will.mk "w-2" "u-1" "e-2" [] [] 30 false).
Proof.
  intros ic payload st.
  assert (Hu : is_Some (users st !! WillPayload.userId payload))
    by (vm_compute; eauto).
  assert (He : is_Some (executors st !! WillPayload.executorId payload))
    by (vm_compute; eauto).
  split; [exact Hu|]. split; [exact He|].
  destruct (createWill_behaviour ic payload st) as [_ H].
  destruct (H Hu He) as (Hr & _ & Hl & _).
  split; [exact Hr | exact Hl].
Defined.

(** C4. assignExecutor frame condition: with the will present and the
    executor present the call succeeds; the stored will then has the given
    [executorId] and every other field as before; every other will and the
    users, executors, assets and beneficiaries collections are unchanged. *)
Theorem assignExecutor_frame payload st will executor :
  wills st !! AssignExecutorPayload.willId payload = Some will →
  executors st !! AssignExecutorPayload.executorId payload = Some executor →
  ∃ st' will',
    assignExecutor payload st = (Ok null, st')
    ∧ wills st' !! AssignExecutorPayload.willId payload = Some will'
    ∧ Will.executorId will' = AssignExecutorPayload.executorId payload
    ∧ Will.id will' = Will.id will
    ∧ Will.userId will' = Will.userId will
    ∧ Will.assets will' = Will.assets will
    ∧ Will.beneficiaries will' = Will.beneficiaries will
    ∧ Will.createdAt will' = Will.createdAt will
    ∧ Will.isExecuted will' = Will.isExecuted will
    ∧ (∀ k, k ≠ AssignExecutorPayload.willId payload →
            wills st' !! k = wills st !! k)
    ∧ users st' = users st
    ∧ executors st' = executors st
    ∧ assetsMap st' = assetsMap st
    ∧ beneficiariesMap st' = beneficiariesMap st.
Proof.
  intros Hwill Hexecutor. rewrite assignExecutor_eq, Hwill, Hexecutor.
  eexists _, _. split; [reflexivity|]. cbn [wills users executors assetsMap
    beneficiariesMap]. rewrite lookup_insert_eq.
  split; [reflexivity|]. cbn.
  repeat split. intros k Hk. by rewrite lookup_insert_ne.
Qed.

Lemma assignExecutor_frame_witness :
  ∃ st' will',
    assignExecutor (AssignExecutorPayload.mk "w-1" "e-1") scenario_state
      = (Ok null, st')
    ∧ wills st' !! "w-1" = Some will'
    ∧ Will.executorId will' = "e-1"
    ∧ Will.assets will' = [Asset.mk "a-1" "w-1" "House" 500000 13]
    ∧ Will.createdAt will' = 12%N.
Proof.
  destruct (assignExecutor_frame (AssignExecutorPayload.mk "w-1" "e-1")
              scenario_state
              {| Will.id := "w-1"; Will.userId := "u-1";
                 Will.executorId := "e-2";
                 Will.assets := [Asset.mk "a-1" "w-1" "House" 500000 13];
                 Will.beneficiaries :=
                   [Beneficiary.mk "b-1" "w-1" "Carol" 100 14];
                 Will.createdAt := 12; Will.isExecuted := false |}
              (Executor.mk "e-1" "Bob" "bob@x.com" 11))
    as (st' & will' & H1 & H2 & H3 & _ & _ & H4 & _ & H5 & _).
  - vm_compute. reflexivity.
  - vm_compute. reflexivity.
  - exists st', will'. repeat split; assumption.
Defined.

(** C5, as the claim states it, fails: a name of one space is
    whitespace-only, yet [createUser] accepts the payload, so "a
    ValidationError exactly when name or email is blank" does not hold at
    this input. *)
Lemma createUser_whitespace_accepted :
  let payload := UserPayload.mk " " "alice@x.com" in
  ¬ (fails_with ValidationError (createUser (mkEnv "u-1" 10) payload init).1
     ↔ blank (UserPayload.name payload) = true
       ∨ blank (UserPayload.email payload) = true).
Proof.
  intros payload [_ H]. vm_compute in H. apply H. by left.
Qed.

(** C5, amended. createUser fails with a ValidationError exactly when the
    name or the email is the empty string, and createExecutor exactly when
    the name or the contact is the empty string (whitespace-only text is
    accepted; a payload always carries its text fields); on such a failure
    no collection changes. *)
Theorem creation_validation ic st :
  (∀ payload,
     (fails_with ValidationError (createUser ic payload st).1
      ↔ UserPayload.name payload = "" ∨ UserPayload.email payload = "")
     ∧ (fails_with ValidationError (createUser ic payload st).1 →
        (createUser ic payload st).2 = st))
  ∧ (∀ payload,
     (fails_with ValidationError (createExecutor ic payload st).1
      ↔ ExecutorPayload.name payload = ""
        ∨ ExecutorPayload.contact payload = "")
     ∧ (fails_with ValidationError (createExecutor ic payload st).1 →
        (createExecutor ic payload st).2 = st)).
Proof.
  split; intros [a b].
  - rewrite createUser_eq. destruct a, b; cbn; intuition congruence.
  - rewrite createExecutor_eq. destruct a, b; cbn; intuition congruence.
Qed.

Lemma creation_validation_witness :
  fails_with ValidationError
    (createUser (mkEnv "u-9" 1) (UserPayload.mk "" "alice@x.com") scenario_state).1
  ∧ (createUser (mkEnv "u-9" 1) (UserPayload.mk "" "alice@x.com") scenario_state).2
    = scenario_state.
Proof.
  destruct (creation_validation (mkEnv "u-9" 1) scenario_state) as [H _].
  destruct (H (UserPayload.mk "" "alice@x.com")) as [H1 H2].
  assert (Hf : fails_with ValidationError
                 (createUser (mkEnv "u-9" 1) (UserPayload.mk "" "alice@x.com")
                    scenario_state).1)
    by (apply H1; left; reflexivity).
  split; [exact Hf | exact (H2 Hf)].
Defined.

(** C9. Query idempotence and purity: two [getUser] calls in a row on the
    same id return the same result, and the state after each is the state
    before; likewise for [getExecutor] and [getWill]. *)
Theorem query_idempotent st id :
  (let '(r1, st1) := getUser id st in
   let '(r2, st2) := getUser id st1 in
   r1 = r2 ∧ st1 = st ∧ st2 = st)
  ∧ (let '(r1, st1) := getExecutor id st in
     let '(r2, st2) := getExecutor id st1 in
     r1 = r2 ∧ st1 = st ∧ st2 = st)
  ∧ (let '(r1, st1) := getWill id st in
     let '(r2, st2) := getWill id st1 in
     r1 = r2 ∧ st1 = st ∧ st2 = st).
Proof.
  rewrite !getUser_eq, !getExecutor_eq, !getWill_eq. done.
Qed.

(** C10. Atomicity on error: a call whose reply is an error leaves all five
    collections exactly as they were. *)
Theorem error_leaves_state c st :
  failed (call c st).1 = true → (call c st).2 = st.
Proof.
  destruct c; unfold call, mbind, M_bind, mret, M_ret.
  - rewrite createUser_eq. by destruct (_ || _).
  - rewrite createExecutor_eq. by destruct (_ || _).
  - rewrite createWill_eq. destruct (users st !! _); [|done].
    by destruct (executors st !! _).
  - rewrite addAsset_eq. by destruct (wills st !! _).
  - rewrite addBeneficiary_eq. by destruct (wills st !! _).
  - rewrite assignExecutor_eq. destruct (wills st !! _); [|done].
    by destruct (executors st !! _).
  - by rewrite getUser_eq.
  - by rewrite getAllUsers_eq.
  - by rewrite getExecutor_eq.
  - by rewrite getAllExecutors_eq.
  - by rewrite getWill_eq.
  - by rewrite getAllWills_eq.
Qed.

Lemma error_leaves_state_witness :
  let c := AssignExecutor (AssignExecutorPayload.mk "w-1" "e-404") in
  failed (call c scenario_state).1 = true
  ∧ (call c scenario_state).2 = scenario_state.
Proof.
  intros c.
  assert (H : failed (call c scenario_state).1 = true)
    by (vm_compute; reflexivity).
  split; [exact H | exact (error_leaves_state c scenario_state H)].
Defined.

(** C8, as the claim states it, fails: a successful [addAsset] replies
    [Ok(null)], which carries no record at all. *)
Lemma addAsset_reply_carries_nothing :
  let c := AddAsset (mkEnv "a-2" 20) (AssetPayload.mk "w-1" "Car" 10000) in
  ¬ (failed (call c scenario_state).1 = false →
     carried (call c scenario_state).1 ≠ []).
Proof.
  intros c H. apply H; vm_compute; reflexivity.
Qed.

(** C8, amended. A successful createUser, createExecutor or createWill
    returns the record it created, which is the one then stored under its
    id; a successful getUser, getExecutor or getWill returns the stored
    record; a successful getAll* returns a list that is, up to order,
    the stored records of its collection; a successful addAsset,
    addBeneficiary or assignExecutor returns [Ok(null)], a reply that
    carries no record, although the asset or beneficiary it created is then
    stored and embedded in the will, or the will it updated is stored with
    the new executor. *)
Theorem successful_output_shape c st :
  failed (call c st).1 = false →
  match c with
  | CreateUser _ _ =>
      ∃ user, (call c st).1 = UserReply (Ok user)
              ∧ users (call c st).2 !! User.id user = Some user
  | CreateExecutor _ _ =>
      ∃ executor, (call c st).1 = ExecutorReply (Ok executor)
                  ∧ executors (call c st).2 !! Executor.id executor
                    = Some executor
  | CreateWill _ _ =>
      ∃ will, (call c st).1 = WillReply (Ok will)
              ∧ wills (call c st).2 !! Will.id will = Some will
  | AddAsset ic payload =>
      (call c st).1 = NullReply (Ok null)
      ∧ carried (call c st).1 = []
      ∧ ∃ will asset,
          wills (call c st).2 !! AssetPayload.willId payload = Some will
          ∧ asset ∈ Will.assets will
          ∧ assetsMap (call c st).2 !! uuidv4 ic = Some asset
  | AddBeneficiary ic payload =>
      (call c st).1 = NullReply (Ok null)
      ∧ carried (call c st).1 = []
      ∧ ∃ will beneficiary,
          wills (call c st).2 !! BeneficiaryPayload.willId payload = Some will
          ∧ beneficiary ∈ Will.beneficiaries will
          ∧ beneficiariesMap (call c st).2 !! uuidv4 ic = Some beneficiary
  | AssignExecutor payload =>
      (call c st).1 = NullReply (Ok null)
      ∧ carried (call c st).1 = []
      ∧ ∃ will,
          wills (call c st).2 !! AssignExecutorPayload.willId payload
          = Some will
          ∧ Will.executorId will = AssignExecutorPayload.executorId payload
  | GetUser userId =>
      ∃ user, (call c st).1 = UserReply (Ok user)
              ∧ users st !! userId = Some user
  | GetExecutor executorId =>
      ∃ executor, (call c st).1 = ExecutorReply (Ok executor)
                  ∧ executors st !! executorId = Some executor
  | GetWill willId =>
      ∃ will, (call c st).1 = WillReply (Ok will)
              ∧ wills st !! willId = Some will
  | GetAllUsers =>
      ∃ l, (call c st).1 = UsersReply (Ok l)
           ∧ l ≡ₚ (map_to_list (users st)).*2
           ∧ ∀ user, user ∈ l ↔ ∃ k, users st !! k = Some user
  | GetAllExecutors =>
      ∃ l, (call c st).1 = ExecutorsReply (Ok l)
           ∧ l ≡ₚ (map_to_list (executors st)).*2
           ∧ ∀ executor, executor ∈ l ↔ ∃ k, executors st !! k = Some executor
  | GetAllWills =>
      ∃ l, (call c st).1 = WillsReply (Ok l)
           ∧ l ≡ₚ (map_to_list (wills st)).*2
           ∧ ∀ will, will ∈ l ↔ ∃ k, wills st !! k = Some will
  end.
Proof.
  assert (Hmem : ∀ V (m : gmap string V) v,
            v ∈ (map_to_list m).*2 ↔ ∃ k, m !! k = Some v).
  { intros V m v. rewrite list_elem_of_fmap. split.
    - intros ([k v'] & -> & Hin). exists k. by apply elem_of_map_to_list.
    - intros [k Hk]. exists (k, v). split; [done|].
      by apply elem_of_map_to_list. }
  destruct c; unfold call, mbind, M_bind, mret, M_ret.
  - rewrite createUser_eq. destruct (_ || _); [done|]. cbn. intros _.
    eexists. split; [reflexivity|]. cbn. apply lookup_insert_eq.
  - rewrite createExecutor_eq. destruct (_ || _); [done|]. cbn. intros _.
    eexists. split; [reflexivity|]. cbn. apply lookup_insert_eq.
  - rewrite createWill_eq. destruct (users st !! _); [|done].
    destruct (executors st !! _); [|done]. cbn. intros _.
    eexists. split; [reflexivity|]. cbn. apply lookup_insert_eq.
  - rewrite addAsset_eq. destruct (wills st !! _); [|done]. cbn. intros _.
    split; [done|]. split; [done|]. eexists _, _.
    rewrite !lookup_insert_eq. split; [done|]. split; [|done].
    cbn. apply elem_of_app. right. by apply list_elem_of_singleton.
  - rewrite addBeneficiary_eq. destruct (wills st !! _); [|done].
    cbn. intros _.
    split; [done|]. split; [done|]. eexists _, _.
    rewrite !lookup_insert_eq. split; [done|]. split; [|done].
    cbn. apply elem_of_app. right. by apply list_elem_of_singleton.
  - rewrite assignExecutor_eq. destruct (wills st !! _); [|done].
    destruct (executors st !! _); [|done]. cbn. intros _.
    split; [done|]. split; [done|]. eexists.
    rewrite lookup_insert_eq. done.
  - rewrite getUser_eq. destruct (users st !! _); [|done]. by eexists.
  - rewrite getAllUsers_eq. unfold listing. cbn [fst].
    pose proof (Hmem _ (users st)) as Hin.
    destruct ((map_to_list (users st)).*2); [done|]. intros _. by eexists.
  - rewrite getExecutor_eq. destruct (executors st !! _); [|done]. by eexists.
  - rewrite getAllExecutors_eq. unfold listing. cbn [fst].
    pose proof (Hmem _ (executors st)) as Hin.
    destruct ((map_to_list (executors st)).*2); [done|]. intros _. by eexists.
  - rewrite getWill_eq. destruct (wills st !! _); [|done]. by eexists.
  - rewrite getAllWills_eq. unfold listing. cbn [fst].
    pose proof (Hmem _ (wills st)) as Hin.
    destruct ((map_to_list (wills st)).*2); [done|]. intros _. by eexists.
Qed.

Lemma successful_output_shape_witness :
  let c := AddAsset (mkEnv "a-2" 20) (AssetPayload.mk "w-1" "Car" 10000) in
  failed (call c scenario_state).1 = false
  ∧ (call c scenario_state).1 = NullReply (Ok null)
  ∧ carried (call c scenario_state).1 = [].
Proof.
  intros c.
  assert (H : failed (call c scenario_state).1 = false)
    by (vm_compute; reflexivity).
  split; [exact H|].
  destruct (successful_output_shape c scenario_state H) as (Hr & Hc & _).
  split; [exact Hr | exact Hc].
Defined.

(** ** Invariants of reachable states *)

Lemma reachable_init : reachable init.
Proof. by exists []. Qed.

Lemma exec_app cs1 cs2 st : exec (cs1 ++ cs2) st = exec cs2 (exec cs1 st).
Proof. revert st. induction cs1 as [|c cs1 IH]; intros st; cbn; auto. Qed.

Lemma reachable_step c st : reachable st → reachable (call c st).2.
Proof.
  intros [cs ->]. exists (cs ++ [c]). by rewrite exec_app.
Qed.

(** An invariant of the initial state that every call preserves holds in
    every reachable state. *)
Lemma reachable_ind (P : State → Prop) :
  P init → (∀ c st, P st → P (call c st).2) → ∀ st, reachable st → P st.
Proof.
  intros Hinit Hstep st [cs ->].
  induction cs as [|c cs IH] using rev_ind; [done|].
  rewrite exec_app. by apply Hstep.
Qed.

(** The wills collection after a call: every stored will was there before,
    or is a stored will with one asset or beneficiary pushed or its
    executor replaced, or is the will [createWill] has just built. *)
Lemma call_wills c st k will' :
  wills (call c st).2 !! k = Some will' →
  wills st !! k = Some will'
  ∨ (∃ will, wills st !! k = Some will
       ∧ ((∃ asset, will' = Will.push_asset asset will)
          ∨ (∃ beneficiary, will' = Will.push_beneficiary beneficiary will)
          ∨ (∃ executorId, will' = Will.set_executorId executorId will)))
  ∨ (∃ ic payload, c = CreateWill ic payload ∧ k = uuidv4 ic
       ∧ (createWill ic payload st).1 = Ok will'
       ∧ Will.isExecuted will' = false).
Proof.
  destruct c; unfold call, mbind, M_bind, mret, M_ret.
  - rewrite createUser_eq. destruct (_ || _); cbn; auto.
  - rewrite createExecutor_eq. destruct (_ || _); cbn; auto.
  - rewrite createWill_eq.
    destruct (users st !! WillPayload.userId payload) eqn:Hu; [|by auto].
    destruct (executors st !! WillPayload.executorId payload) eqn:He;
      [|by auto]. cbn.
    destruct (decide (uuidv4 ic = k)) as [<-|Hne].
    + rewrite lookup_insert_eq. intros [= <-]. right; right.
      exists ic, payload. rewrite createWill_eq, Hu, He. done.
    + rewrite lookup_insert_ne by done. auto.
  - rewrite addAsset_eq.
    destruct (wills st !! AssetPayload.willId payload) as [will|] eqn:Hw;
      [|by auto]. cbn.
    destruct (decide (AssetPayload.willId payload = k)) as [<-|Hne].
    + rewrite lookup_insert_eq. intros [= <-]. right; left.
      exists will. split; [done|]. left. by eexists.
    + rewrite lookup_insert_ne by done. auto.
  - rewrite addBeneficiary_eq.
    destruct (wills st !! BeneficiaryPayload.willId payload) as [will|] eqn:Hw;
      [|by auto]. cbn.
    destruct (decide (BeneficiaryPayload.willId payload = k)) as [<-|Hne].
    + rewrite lookup_insert_eq. intros [= <-]. right; left.
      exists will. split; [done|]. right; left. by eexists.
    + rewrite lookup_insert_ne by done. auto.
  - rewrite assignExecutor_eq.
    destruct (wills st !! AssignExecutorPayload.willId payload)
      as [will|] eqn:Hw; [|by auto].
    destruct (executors st !! _); [|by auto]. cbn.
    destruct (decide (AssignExecutorPayload.willId payload = k)) as [<-|Hne].
    + rewrite lookup_insert_eq. intros [= <-]. right; left.
      exists will. split; [done|]. right; right. by eexists.
    + rewrite lookup_insert_ne by done. auto.
  - rewrite getUser_eq. auto.
  - rewrite getAllUsers_eq. auto.
  - rewrite getExecutor_eq. auto.
  - rewrite getAllExecutors_eq. auto.
  - rewrite getWill_eq. auto.
  - rewrite getAllWills_eq. auto.
Qed.

Lemma never_executed_step c st :
  never_executed st → never_executed (call c st).2.
Proof.
  intros Hinv k will' Hk.
  apply call_wills in Hk as [Hk|[(will & Hk & Hwill')|Hk]].
  - by eapply Hinv.
  - apply Hinv in Hk.
    destruct Hwill' as [[? ->]|[[? ->]|[? ->]]]; exact Hk.
  - by destruct Hk as (? & ? & _ & _ & _ & ?).
Qed.

(** C7. In every reachable state every stored will has
    [isExecuted = false]: a will that [createWill] returns has it false,
    and no call changes the flag of a stored will. *)
Theorem isExecuted_never_true st :
  reachable st →
  (∀ k will, wills st !! k = Some will → Will.isExecuted will = false)
  ∧ (∀ ic payload will,
       (createWill ic payload st).1 = Ok will → Will.isExecuted will = false)
  ∧ (∀ c k will will',
       wills st !! k = Some will →
       wills (call c st).2 !! k = Some will' →
       Will.isExecuted will' = Will.isExecuted will).
Proof.
  intros Hreach.
  assert (Hinv : never_executed st).
  { revert st Hreach. apply reachable_ind; [|apply never_executed_step].
    intros k will. unfold init; cbn. by rewrite lookup_empty. }
  split; [exact Hinv|]. split.
  - intros ic payload will. rewrite createWill_eq.
    destruct (users st !! _); [|done]. destruct (executors st !! _); [|done].
    cbn. by intros [= <-].
  - intros c k will will' Hk Hk'.
    rewrite (never_executed_step c st Hinv k will' Hk'). symmetry.
    by apply (Hinv k).
Qed.

Lemma isExecuted_never_true_witness :
  reachable scenario_state
  ∧ ∀ k will, wills scenario_state !! k = Some will →
              Will.isExecuted will = false.
Proof.
  assert (H : reachable scenario_state) by (exists scenario; reflexivity).
  split; [exact H | exact (proj1 (isExecuted_never_true scenario_state H))].
Defined.

(** ** Listing a collection *)

Ltac unfold_call :=
  unfold call, mbind, M_bind, mret, M_ret;
  rewrite ?createUser_eq, ?createExecutor_eq, ?createWill_eq, ?addAsset_eq,
    ?addBeneficiary_eq, ?assignExecutor_eq, ?getUser_eq, ?getAllUsers_eq,
    ?getExecutor_eq, ?getAllExecutors_eq, ?getWill_eq, ?getAllWills_eq.

Section listing.
Context {V : Type}.
Implicit Types (m : gmap string V) (r : Result (list V)).

Lemma records_nil m : (map_to_list m).*2 = [] ↔ m = ∅.
Proof.
  rewrite <-map_to_list_empty_iff. split; [|by intros ->].
  by apply fmap_nil_inv.
Qed.

Lemma elem_of_records m v : v ∈ (map_to_list m).*2 ↔ ∃ k, m !! k = Some v.
Proof.
  rewrite list_elem_of_fmap. split.
  - intros ([k v'] & -> & Hin). exists k. by apply elem_of_map_to_list.
  - intros [k Hk]. exists (k, v). split; [done|].
    by apply elem_of_map_to_list.
Qed.

Lemma listing_spec message m :
  error_kind message = Some EmptyCollectionError →
  (fails_with EmptyCollectionError (listing message m) ↔ m = ∅)
  ∧ (m ≠ ∅ → ∃ l, listing message m = Ok l)
  ∧ (∀ l, listing message m = Ok l →
       length l = size m ∧ ∀ v, v ∈ l ↔ ∃ k, m !! k = Some v).
Proof.
  intros Hkind. unfold listing.
  destruct ((map_to_list m).*2) as [|v l] eqn:Hl.
  - apply records_nil in Hl as ->. cbn. split; [done|]. split; done.
  - split; [|split].
    + cbn. split; [done|]. intros Hm. apply records_nil in Hm. congruence.
    + intros _. by eexists.
    + intros l' [= <-]. rewrite <-Hl. split.
      * by rewrite length_fmap, length_map_to_list.
      * apply elem_of_records.
Qed.
End listing.

Lemma created_users_step c st :
  fresh c st →
  (map_to_list (users (call c st).2)).*2
  ≡ₚ (map_to_list (users st)).*2 ++ created_user c st.
Proof.
  intros Hfresh. destruct c; cbn [created_user]; unfold_call;
    rewrite ?app_nil_r; try done.
  - destruct (_ || _); cbn; [by rewrite app_nil_r|].
    rewrite map_to_list_insert by exact Hfresh.
    rewrite fmap_cons. cbn. by rewrite (Permutation_app_comm _ [_]).
  - by destruct (_ || _).
  - destruct (users st !! _); [|done]. by destruct (executors st !! _).
  - by destruct (wills st !! _).
  - by destruct (wills st !! _).
  - destruct (wills st !! _); [|done]. by destruct (executors st !! _).
Qed.

Lemma created_users_run cs st :
  fresh_run cs st →
  (map_to_list (users (exec cs st))).*2
  ≡ₚ (map_to_list (users st)).*2 ++ created_users cs st.
Proof.
  revert st. induction cs as [|c cs IH]; intros st; cbn.
  - by rewrite app_nil_r.
  - intros [Hc Hcs]. rewrite (IH _ Hcs), (created_users_step c st Hc).
    by rewrite app_assoc.
Qed.

(** C6. List-all semantics.  In any state, each of getAllUsers,
    getAllExecutors and getAllWills fails with an EmptyCollectionError
    exactly when its collection is empty and otherwise returns a list with
    as many entries as the collection has records, whose members are exactly
    the stored records.  After a run from the initial state in which the
    minted ids are fresh, what getAllUsers returns is a permutation of the
    users created so far, and it fails exactly when none was created. *)
Theorem list_all_semantics :
  (∀ st,
     ((fails_with EmptyCollectionError (getAllUsers st).1 ↔ users st = ∅)
      ∧ (users st ≠ ∅ → ∃ l, (getAllUsers st).1 = Ok l)
      ∧ (∀ l, (getAllUsers st).1 = Ok l →
           length l = size (users st)
           ∧ ∀ v, v ∈ l ↔ ∃ k, users st !! k = Some v))
     ∧ ((fails_with EmptyCollectionError (getAllExecutors st).1
         ↔ executors st = ∅)
        ∧ (executors st ≠ ∅ → ∃ l, (getAllExecutors st).1 = Ok l)
        ∧ (∀ l, (getAllExecutors st).1 = Ok l →
             length l = size (executors st)
             ∧ ∀ v, v ∈ l ↔ ∃ k, executors st !! k = Some v))
     ∧ ((fails_with EmptyCollectionError (getAllWills st).1 ↔ wills st = ∅)
        ∧ (wills st ≠ ∅ → ∃ l, (getAllWills st).1 = Ok l)
        ∧ (∀ l, (getAllWills st).1 = Ok l →
             length l = size (wills st)
             ∧ ∀ v, v ∈ l ↔ ∃ k, wills st !! k = Some v)))
  ∧ (∀ cs, fresh_run cs init →
       (fails_with EmptyCollectionError (getAllUsers (exec cs init)).1
        ↔ created_users cs init = [])
       ∧ (∀ l, (getAllUsers (exec cs init)).1 = Ok l →
            l ≡ₚ created_users cs init)).
Proof.
  split.
  - intros st. rewrite getAllUsers_eq, getAllExecutors_eq, getAllWills_eq.
    cbn [fst]. split; [|split]; by apply listing_spec.
  - intros cs Hfresh. pose proof (created_users_run cs init Hfresh) as Hperm.
    unfold init at 2 in Hperm. cbn in Hperm.
    rewrite map_to_list_empty in Hperm. cbn in Hperm.
    rewrite getAllUsers_eq. cbn [fst]. unfold listing.
    destruct ((map_to_list (users (exec cs init))).*2) as [|u l] eqn:Hl.
    + symmetry in Hperm. apply Permutation_nil_r in Hperm.
      rewrite Hperm. cbn. split; [done|]. intros l [=].
    + split.
      * cbn. split; [done|]. intros Hnil. rewrite Hnil in Hperm.
        by apply Permutation_nil_r in Hperm.
      * by intros l' [= <-].
Qed.

Lemma list_all_semantics_witness :
  fresh_run scenario init
  ∧ ∀ l, (getAllUsers scenario_state).1 = Ok l →
         l ≡ₚ [User.mk "u-1" "Alice" "alice@x.com" 10].
Proof.
  assert (H : fresh_run scenario init) by (vm_compute; tauto).
  split; [exact H|].
  exact (proj2 (proj2 list_all_semantics scenario H)).
Defined.

(** ** The embedded lists and the standalone collections *)

Lemma new_records_same {V} (m : gmap string V) : new_records m m = [].
Proof. unfold new_records. by rewrite map_difference_diag, map_to_list_empty. Qed.

Lemma new_records_insert {V} (m : gmap string V) k v :
  m !! k = None → new_records m (<[k := v]> m) = [v].
Proof.
  intros Hk. unfold new_records.
  assert (<[k := v]> m ∖ m = {[k := v]}) as ->.
  { apply map_eq. intros j. rewrite lookup_difference.
    destruct (decide (k = j)) as [<-|Hne].
    - by rewrite Hk, lookup_insert_eq, lookup_singleton_eq.
    - rewrite lookup_insert_ne, lookup_singleton_ne by done.
      by destruct (m !! j). }
  by rewrite map_to_list_singleton.
Qed.

Lemma records_insert {V} (m : gmap string V) k v (log : list V) :
  m !! k = None →
  (map_to_list m).*2 ≡ₚ log →
  (map_to_list (<[k := v]> m)).*2 ≡ₚ log ++ [v].
Proof.
  intros Hk Hlog. rewrite map_to_list_insert by done.
  rewrite fmap_cons. cbn. rewrite Hlog. apply Permutation_cons_append.
Qed.

Lemma consistent_init : consistent init [] [].
Proof.
  split; unfold init; cbn; try (intros ? ?; rewrite lookup_empty; done);
    try (intros ? Hin; by apply not_elem_of_nil in Hin);
    by rewrite map_to_list_empty.
Qed.

Lemma filter_none {A} (P : A → Prop) `{!∀ x, Decision (P x)} (l : list A) :
  (∀ x, x ∈ l → ¬ P x) → filter P l = [].
Proof.
  induction l as [|x l IH]; intros Hnone; [done|].
  rewrite filter_cons. destruct (decide (P x)) as [HP|_].
  - exfalso. apply (Hnone x); [left|done].
  - apply IH. intros y Hy. apply Hnone. by right.
Qed.

Lemma consistent_frame st st' la lb :
  wills st' = wills st →
  assetsMap st' = assetsMap st →
  beneficiariesMap st' = beneficiariesMap st →
  consistent st la lb → consistent st' la lb.
Proof.
  intros Hw Ha Hb []. split; rewrite ?Hw, ?Ha, ?Hb; assumption.
Qed.

Lemma consistent_createWill st la lb k will :
  consistent st la lb →
  wills st !! k = None →
  Will.id will = k → Will.assets will = [] → Will.beneficiaries will = [] →
  consistent
    {| users := users st; wills := <[k := will]> (wills st);
       executors := executors st; assetsMap := assetsMap st;
       beneficiariesMap := beneficiariesMap st |} la lb.
Proof.
  intros [] Hfresh Hid Hassets Hbeneficiaries.
  assert (Hold : ∀ j w, <[k := will]> (wills st) !! j = Some w →
                        (j = k ∧ w = will) ∨ (j ≠ k ∧ wills st !! j = Some w)).
  { intros j w. rewrite lookup_insert. case_decide; naive_solver. }
  split; cbn; try assumption.
  - intros j w [[-> ->]|[_ Hj]]%Hold; eauto.
  - intros j w [[-> ->]|[_ Hj]]%Hold; [|by eauto].
    rewrite Hassets. symmetry. apply filter_none.
    intros a Ha Hk. apply assets_owned0 in Ha as [w Hw]. congruence.
  - intros j w [[-> ->]|[_ Hj]]%Hold; [|by eauto].
    rewrite Hbeneficiaries. symmetry. apply filter_none.
    intros b Hb Hk. apply beneficiaries_owned0 in Hb as [w Hw]. congruence.
  - intros a Ha. apply lookup_insert_is_Some'. right. by apply assets_owned0.
  - intros b Hb. apply lookup_insert_is_Some'. right.
    by apply beneficiaries_owned0.
Qed.

Lemma consistent_addAsset st la lb k will asset :
  consistent st la lb →
  wills st !! k = Some will →
  assetsMap st !! Asset.id asset = None →
  Asset.willId asset = k →
  consistent
    {| users := users st;
       wills := <[k := Will.push_asset asset will]> (wills st);
       executors := executors st;
       assetsMap := <[Asset.id asset := asset]> (assetsMap st);
       beneficiariesMap := beneficiariesMap st |} (la ++ [asset]) lb.
Proof.
  intros [] Hwill Hfresh Howner.
  assert (Hold : ∀ j w, <[k := Will.push_asset asset will]> (wills st) !! j
                        = Some w →
                        (j = k ∧ w = Will.push_asset asset will)
                        ∨ (j ≠ k ∧ wills st !! j = Some w)).
  { intros j w. rewrite lookup_insert. case_decide; naive_solver. }
  split; cbn; try assumption.
  - intros j w [[-> ->]|[_ Hj]]%Hold; cbn; eauto.
  - intros j a. rewrite lookup_insert. case_decide; [naive_solver|eauto].
  - intros j w [[-> ->]|[Hne Hj]]%Hold; rewrite filter_app.
    + rewrite filter_cons_True, filter_nil by done.
      cbn [Will.assets Will.push_asset].
      by rewrite (assets_embedded0 _ _ Hwill).
    + rewrite filter_cons_False, filter_nil, app_nil_r by congruence.
      eauto.
  - intros j w [[-> ->]|[_ Hj]]%Hold; cbn; eauto.
  - intros a [Ha|Ha%list_elem_of_singleton]%elem_of_app;
      apply lookup_insert_is_Some'; right; [by apply assets_owned0|].
    subst a. rewrite Howner. by eexists.
  - intros b Hb. apply lookup_insert_is_Some'. right.
    by apply beneficiaries_owned0.
  - by apply records_insert.
Qed.

Lemma consistent_addBeneficiary st la lb k will beneficiary :
  consistent st la lb →
  wills st !! k = Some will →
  beneficiariesMap st !! Beneficiary.id beneficiary = None →
  Beneficiary.willId beneficiary = k →
  consistent
    {| users := users st;
       wills := <[k := Will.push_beneficiary beneficiary will]> (wills st);
       executors := executors st;
       assetsMap := assetsMap st;
       beneficiariesMap :=
         <[Beneficiary.id beneficiary := beneficiary]> (beneficiariesMap st) |}
    la (lb ++ [beneficiary]).
Proof.
  intros [] Hwill Hfresh Howner.
  assert (Hold : ∀ j w,
             <[k := Will.push_beneficiary beneficiary will]> (wills st) !! j
             = Some w →
             (j = k ∧ w = Will.push_beneficiary beneficiary will)
             ∨ (j ≠ k ∧ wills st !! j = Some w)).
  { intros j w. rewrite lookup_insert. case_decide; naive_solver. }
  split; cbn; try assumption.
  - intros j w [[-> ->]|[_ Hj]]%Hold; cbn; eauto.
  - intros j b. rewrite lookup_insert. case_decide; [naive_solver|eauto].
  - intros j w [[-> ->]|[_ Hj]]%Hold; cbn; eauto.
  - intros j w [[-> ->]|[Hne Hj]]%Hold; rewrite filter_app.
    + rewrite filter_cons_True, filter_nil by done.
      cbn [Will.beneficiaries Will.push_beneficiary].
      by rewrite (beneficiaries_embedded0 _ _ Hwill).
    + rewrite filter_cons_False, filter_nil, app_nil_r by congruence.
      eauto.
  - intros a Ha. apply lookup_insert_is_Some'. right. by apply assets_owned0.
  - intros b [Hb|Hb%list_elem_of_singleton]%elem_of_app;
      apply lookup_insert_is_Some'; right; [by apply beneficiaries_owned0|].
    subst b. rewrite Howner. by eexists.
  - by apply records_insert.
Qed.

Lemma consistent_assignExecutor st la lb k will executorId :
  consistent st la lb →
  wills st !! k = Some will →
  consistent
    {| users := users st;
       wills := <[k := Will.set_executorId executorId will]> (wills st);
       executors := executors st; assetsMap := assetsMap st;
       beneficiariesMap := beneficiariesMap st |} la lb.
Proof.
  intros [] Hwill.
  assert (Hold : ∀ j w,
             <[k := Will.set_executorId executorId will]> (wills st) !! j
             = Some w →
             (j = k ∧ w = Will.set_executorId executorId will)
             ∨ (j ≠ k ∧ wills st !! j = Some w)).
  { intros j w. rewrite lookup_insert. case_decide; naive_solver. }
  split; cbn; try assumption.
  - intros j w [[-> ->]|[_ Hj]]%Hold; cbn; eauto.
  - intros j w [[-> ->]|[_ Hj]]%Hold; cbn; eauto.
  - intros j w [[-> ->]|[_ Hj]]%Hold; cbn; eauto.
  - intros a Ha. apply lookup_insert_is_Some'. right. by apply assets_owned0.
  - intros b Hb. apply lookup_insert_is_Some'. right.
    by apply beneficiaries_owned0.
Qed.

(** Every call with a fresh id keeps the invariant, the logs growing by
    what the call stored into the standalone collections. *)
Lemma consistent_step c st la lb :
  consistent st la lb →
  fresh c st →
  consistent (call c st).2
    (la ++ new_records (assetsMap st) (assetsMap (call c st).2))
    (lb ++ new_records (beneficiariesMap st) (beneficiariesMap (call c st).2)).
Proof.
  intros Hinv Hfresh.
  assert (Hsame : consistent st (la ++ new_records (assetsMap st) (assetsMap st))
                    (lb ++ new_records (beneficiariesMap st)
                            (beneficiariesMap st)))
    by (by rewrite !new_records_same, !app_nil_r).
  destruct c; unfold_call; cbn in Hfresh; try exact Hsame.
  - destruct (_ || _); [exact Hsame|]. cbn. by apply (consistent_frame st).
  - destruct (_ || _); [exact Hsame|]. cbn. by apply (consistent_frame st).
  - destruct (users st !! _); [|exact Hsame].
    destruct (executors st !! _); [|exact Hsame]. cbn.
    rewrite !new_records_same, !app_nil_r.
    by apply consistent_createWill.
  - destruct (wills st !! AssetPayload.willId payload) as [will|] eqn:Hwill;
      [|exact Hsame]. cbn.
    rewrite new_records_same, app_nil_r, new_records_insert by done.
    by apply (consistent_addAsset st la lb _ will
                {| Asset.id := uuidv4 ic |}).
  - destruct (wills st !! BeneficiaryPayload.willId payload) as [will|] eqn:Hwill;
      [|exact Hsame]. cbn.
    rewrite new_records_same, app_nil_r, new_records_insert by done.
    by apply (consistent_addBeneficiary st la lb _ will
                {| Beneficiary.id := uuidv4 ic |}).
  - destruct (wills st !! AssignExecutorPayload.willId payload) as [will|]
      eqn:Hwill; [|exact Hsame].
    destruct (executors st !! _); [|exact Hsame]. cbn.
    rewrite !new_records_same, !app_nil_r.
    by apply consistent_assignExecutor.
Qed.

Lemma consistent_run cs st la lb :
  consistent st la lb →
  fresh_run cs st →
  consistent (exec cs st) (la ++ assets_log cs st) (lb ++ beneficiaries_log cs st).
Proof.
  revert st la lb. induction cs as [|c cs IH]; intros st la lb Hinv; cbn.
  - intros _. by rewrite !app_nil_r.
  - intros [Hc Hcs]. rewrite !app_assoc. apply IH; [|done].
    by apply consistent_step.
Qed.

(** C1. Dual-write consistency.  After any run from the initial state in
    which the minted ids are fresh, the standalone assets collection holds
    exactly the assets inserted so far, and every stored will is stored
    under its own id and embeds exactly those of them whose [willId] is
    that id, in insertion order; in terms of the state alone, an asset is in
    the embedded list exactly when the standalone collection holds it under
    its id with that [willId].  The same holds for beneficiaries.  As the
    run is arbitrary, every call preserves this. *)
Theorem dual_write_consistency cs :
  fresh_run cs init →
  let st := exec cs init in
  (map_to_list (assetsMap st)).*2 ≡ₚ assets_log cs init
  ∧ (map_to_list (beneficiariesMap st)).*2 ≡ₚ beneficiaries_log cs init
  ∧ ∀ k will, wills st !! k = Some will →
      Will.id will = k
      ∧ Will.assets will
        = filter (λ a, Asset.willId a = Will.id will) (assets_log cs init)
      ∧ Will.beneficiaries will
        = filter (λ b, Beneficiary.willId b = Will.id will)
            (beneficiaries_log cs init)
      ∧ (∀ a, a ∈ Will.assets will
              ↔ assetsMap st !! Asset.id a = Some a
                ∧ Asset.willId a = Will.id will)
      ∧ (∀ b, b ∈ Will.beneficiaries will
              ↔ beneficiariesMap st !! Beneficiary.id b = Some b
                ∧ Beneficiary.willId b = Will.id will).
Proof.
  intros Hfresh st.
  destruct (consistent_run cs init [] [] consistent_init Hfresh)
    as [Hwk Hak Hbk Hae Hbe _ _ Has Hbs].
  cbn [app] in *. fold st in Hwk, Hak, Hbk, Hae, Hbe, Has, Hbs.
  split; [exact Has|]. split; [exact Hbs|].
  intros k will Hwill. rewrite (Hwk _ _ Hwill).
  split; [done|]. split; [by apply Hae|]. split; [by apply Hbe|]. split.
  - intros a. rewrite (Hae _ _ Hwill), list_elem_of_filter, <-Has,
      elem_of_records.
    split.
    + intros [Hk [j Hj]]. split; [|done]. by rewrite (Hak _ _ Hj) in *.
    + intros [Ha Hk]. split; [done|]. by eexists.
  - intros b. rewrite (Hbe _ _ Hwill), list_elem_of_filter, <-Hbs,
      elem_of_records.
    split.
    + intros [Hk [j Hj]]. split; [|done]. by rewrite (Hbk _ _ Hj) in *.
    + intros [Hb Hk]. split; [done|]. by eexists.
Qed.

Lemma dual_write_consistency_witness :
  fresh_run scenario init
  ∧ ∀ k will, wills scenario_state !! k = Some will →
      Will.id will = k
      ∧ Will.assets will
        = filter (λ a, Asset.willId a = Will.id will)
            [Asset.mk "a-1" "w-1" "House" 500000 13]
      ∧ Will.beneficiaries will
        = filter (λ b, Beneficiary.willId b = Will.id will)
            [Beneficiary.mk "b-1" "w-1" "Carol" 100 14].
Proof.
  assert (H : fresh_run scenario init) by (vm_compute; tauto).
  split; [exact H|].
  intros k will Hwill.
  destruct (dual_write_consistency scenario H) as (_ & _ & Hw).
  destruct (Hw k will Hwill) as (H1 & H2 & H3 & _).
  split; [exact H1|]. split; [exact H2 | exact H3].
Defined.

(** The freshness of minted ids is what the invariant rests on: were the
    generator to return an asset id a second time, the standalone record
    would be overwritten while the will keeps both embedded assets. *)
Remark repeated_asset_id_diverges :
  let st := exec (scenario ++ [AddAsset (mkEnv "a-1" 16)
                                 (AssetPayload.mk "w-1" "Car" 10000)]) init in
  ∃ will asset,
    wills st !! "w-1" = Some will
    ∧ asset ∈ Will.assets will
    ∧ assetsMap st !! Asset.id asset ≠ Some asset.
Proof.
  eexists _, (Asset.mk "a-1" "w-1" "House" 500000 13).
  split; [vm_compute; reflexivity|]. split.
  - left.
  - vm_compute. intros [=].
Qed.

(** ** Effects of calls, and what they preserve *)

Lemma call_effect c st : effect st c (call c st).2.
Proof.
  destruct c; unfold_call; try apply effect_none.
  - destruct (_ || _); [apply effect_none|]. by apply effect_createUser.
  - destruct (_ || _); [apply effect_none|]. by apply effect_createExecutor.
  - destruct (users st !! WillPayload.userId payload) eqn:Hu;
      [|apply effect_none].
    destruct (executors st !! WillPayload.executorId payload) eqn:He;
      [|apply effect_none].
    apply effect_createWill; cbn; try done; by eexists.
  - destruct (wills st !! AssetPayload.willId payload) eqn:Hw;
      [|apply effect_none].
    by apply effect_addAsset.
  - destruct (wills st !! BeneficiaryPayload.willId payload) eqn:Hw;
      [|apply effect_none].
    by apply effect_addBeneficiary.
  - destruct (wills st !! AssignExecutorPayload.willId payload) eqn:Hw;
      [|apply effect_none].
    destruct (executors st !! AssignExecutorPayload.executorId payload) eqn:He;
      [|apply effect_none].
    apply effect_assignExecutor; [done|by eexists].
Qed.

Lemma lookup_insert_cases {V} (m : gmap string V) k v j w :
  <[k := v]> m !! j = Some w → (j = k ∧ w = v) ∨ (j ≠ k ∧ m !! j = Some w).
Proof. rewrite lookup_insert. case_decide; naive_solver. Qed.

Lemma keyed_init : keyed init.
Proof. split; unfold init; cbn; intros ? ?; by rewrite lookup_empty. Qed.

Lemma keyed_effect c st st' : keyed st → effect st c st' → keyed st'.
Proof.
  intros [Hu He Hw Ha Hb] Heff.
  destruct Heff; split; cbn; try assumption;
    intros j r [[-> ->]|[_ Hj]]%lookup_insert_cases; cbn; eauto.
Qed.

Lemma keyed_reachable st : reachable st → keyed st.
Proof.
  revert st. apply reachable_ind; [apply keyed_init|].
  intros c st Hk. eapply keyed_effect; [done|apply call_effect].
Qed.

Lemma referenced_init : referenced init.
Proof. split; unfold init; cbn; intros ? ?; by rewrite ?lookup_empty. Qed.

Lemma referenced_effect c st st' :
  referenced st → effect st c st' → referenced st'.
Proof.
  intros [Hwu Hwe Haw Hbw Hea Heb] Heff.
  destruct Heff as [c|ic payload user Hid|ic payload executor Hid
                   |ic payload will Hid Hassets Hbeneficiaries Huser Hexecutor
                   |ic payload will asset Hwill Hid Howner
                   |ic payload will beneficiary Hwill Hid Howner
                   |payload will Hwill Hexecutor];
    [done|..]; split; cbn; try assumption.
  (* createUser *)
  - intros j w Hj. apply lookup_insert_is_Some'. right. by eapply Hwu.
  (* createExecutor *)
  - intros j w Hj. apply lookup_insert_is_Some'. right. by eapply Hwe.
  (* createWill *)
  - intros j w [[-> ->]|[_ Hj]]%lookup_insert_cases; eauto.
  - intros j w [[-> ->]|[_ Hj]]%lookup_insert_cases; eauto.
  - intros j a Hj. apply lookup_insert_is_Some'. right. by eapply Haw.
  - intros j b Hj. apply lookup_insert_is_Some'. right. by eapply Hbw.
  - intros j w a [[-> ->]|[_ Hj]]%lookup_insert_cases; [|by eauto].
    rewrite Hassets. by intros ?%not_elem_of_nil.
  - intros j w b [[-> ->]|[_ Hj]]%lookup_insert_cases; [|by eauto].
    rewrite Hbeneficiaries. by intros ?%not_elem_of_nil.
  (* addAsset *)
  - intros j w [[-> ->]|[_ Hj]]%lookup_insert_cases; cbn; eauto.
  - intros j w [[-> ->]|[_ Hj]]%lookup_insert_cases; cbn; eauto.
  - intros j a [[-> ->]|[_ Hj]]%lookup_insert_cases;
      apply lookup_insert_is_Some'; [left|right]; eauto.
  - intros j b Hj. apply lookup_insert_is_Some'. right. by eapply Hbw.
  - intros j w a [[-> ->]|[_ Hj]]%lookup_insert_cases; [|by eauto]. cbn.
    intros [Hin|Hin%list_elem_of_singleton]%elem_of_app; [by eauto|].
    by subst a.
  - intros j w b [[-> ->]|[_ Hj]]%lookup_insert_cases; cbn; eauto.
  (* addBeneficiary *)
  - intros j w [[-> ->]|[_ Hj]]%lookup_insert_cases; cbn; eauto.
  - intros j w [[-> ->]|[_ Hj]]%lookup_insert_cases; cbn; eauto.
  - intros j a Hj. apply lookup_insert_is_Some'. right. by eapply Haw.
  - intros j b [[-> ->]|[_ Hj]]%lookup_insert_cases;
      apply lookup_insert_is_Some'; [left|right]; eauto.
  - intros j w a [[-> ->]|[_ Hj]]%lookup_insert_cases; cbn; eauto.
  - intros j w b [[-> ->]|[_ Hj]]%lookup_insert_cases; [|by eauto]. cbn.
    intros [Hin|Hin%list_elem_of_singleton]%elem_of_app; [by eauto|].
    by subst b.
  (* assignExecutor *)
  - intros j w [[-> ->]|[_ Hj]]%lookup_insert_cases; cbn; eauto.
  - intros j w [[-> ->]|[_ Hj]]%lookup_insert_cases; cbn; eauto.
  - intros j a Hj. apply lookup_insert_is_Some'. right. by eapply Haw.
  - intros j b Hj. apply lookup_insert_is_Some'. right. by eapply Hbw.
  - intros j w a [[-> ->]|[_ Hj]]%lookup_insert_cases; cbn; eauto.
  - intros j w b [[-> ->]|[_ Hj]]%lookup_insert_cases; cbn; eauto.
Qed.

Lemma referenced_reachable st : reachable st → referenced st.
Proof.
  revert st. apply reachable_ind; [apply referenced_init|].
  intros c st Hr. eapply referenced_effect; [done|apply call_effect].
Qed.

(** X1. In every reachable state each record of the five collections is
    stored under its own [id] field. *)
Theorem stored_under_own_id st :
  reachable st →
  (∀ k user, users st !! k = Some user → User.id user = k)
  ∧ (∀ k executor, executors st !! k = Some executor → Executor.id executor = k)
  ∧ (∀ k will, wills st !! k = Some will → Will.id will = k)
  ∧ (∀ k asset, assetsMap st !! k = Some asset → Asset.id asset = k)
  ∧ (∀ k beneficiary, beneficiariesMap st !! k = Some beneficiary →
                      Beneficiary.id beneficiary = k).
Proof.
  intros [Hu He Hw Ha Hb]%keyed_reachable. repeat split; assumption.
Qed.

Lemma stored_under_own_id_witness :
  reachable scenario_state
  ∧ ∀ k will, wills scenario_state !! k = Some will → Will.id will = k.
Proof.
  assert (H : reachable scenario_state) by (exists scenario; reflexivity).
  split; [exact H|].
  exact (proj1 (proj2 (proj2 (stored_under_own_id scenario_state H)))).
Defined.

(** X2. Referential integrity of wills: in every reachable state the
    [userId] of a stored will is the id of a stored user and its
    [executorId] the id of a stored executor. *)
Theorem will_references_exist st :
  reachable st →
  ∀ k will, wills st !! k = Some will →
    is_Some (users st !! Will.userId will)
    ∧ is_Some (executors st !! Will.executorId will).
Proof.
  intros [Hwu Hwe _ _ _ _]%referenced_reachable k will Hwill. eauto.
Qed.

Lemma will_references_exist_witness :
  reachable scenario_state
  ∧ ∀ k will, wills scenario_state !! k = Some will →
      is_Some (users scenario_state !! Will.userId will)
      ∧ is_Some (executors scenario_state !! Will.executorId will).
Proof.
  assert (H : reachable scenario_state) by (exists scenario; reflexivity).
  split; [exact H | exact (will_references_exist scenario_state H)].
Defined.

(** X3. Referential integrity of assets and beneficiaries: in every
    reachable state the [willId] of a stored asset or beneficiary is the id
    of a stored will, every asset or beneficiary embedded in a will carries
    that will's key as its [willId], and so no asset is embedded in two
    wills. *)
Theorem owner_references_exist st :
  reachable st →
  (∀ k asset, assetsMap st !! k = Some asset →
     is_Some (wills st !! Asset.willId asset))
  ∧ (∀ k beneficiary, beneficiariesMap st !! k = Some beneficiary →
       is_Some (wills st !! Beneficiary.willId beneficiary))
  ∧ (∀ k will asset, wills st !! k = Some will →
       asset ∈ Will.assets will → Asset.willId asset = k)
  ∧ (∀ k will beneficiary, wills st !! k = Some will →
       beneficiary ∈ Will.beneficiaries will →
       Beneficiary.willId beneficiary = k)
  ∧ (∀ k1 k2 will1 will2 asset,
       wills st !! k1 = Some will1 → wills st !! k2 = Some will2 →
       asset ∈ Will.assets will1 → asset ∈ Will.assets will2 → k1 = k2).
Proof.
  intros [_ _ Haw Hbw Hea Heb]%referenced_reachable.
  repeat split; try assumption.
  intros k1 k2 will1 will2 asset H1 H2 Hin1 Hin2.
  by rewrite <-(Hea _ _ _ H1 Hin1), <-(Hea _ _ _ H2 Hin2).
Qed.

Lemma owner_references_exist_witness :
  reachable scenario_state
  ∧ ∀ k asset, assetsMap scenario_state !! k = Some asset →
      is_Some (wills scenario_state !! Asset.willId asset).
Proof.
  assert (H : reachable scenario_state) by (exists scenario; reflexivity).
  split; [exact H | exact (proj1 (owner_references_exist scenario_state H))].
Defined.

(** X4. Nothing is ever deleted: whatever the call and the state, a key
    present in one of the five collections before the call is present in it
    afterwards. *)
Theorem no_deletion c st k :
  (is_Some (users st !! k) → is_Some (users (call c st).2 !! k))
  ∧ (is_Some (executors st !! k) → is_Some (executors (call c st).2 !! k))
  ∧ (is_Some (wills st !! k) → is_Some (wills (call c st).2 !! k))
  ∧ (is_Some (assetsMap st !! k) → is_Some (assetsMap (call c st).2 !! k))
  ∧ (is_Some (beneficiariesMap st !! k) →
     is_Some (beneficiariesMap (call c st).2 !! k)).
Proof.
  destruct (call_effect c st); cbn; repeat split; try done;
    intros Hk; apply lookup_insert_is_Some'; by right.
Qed.

Lemma no_deletion_witness :
  let c := CreateUser (mkEnv "u-1" 99) (UserPayload.mk "Eve" "eve@x.com") in
  is_Some (users scenario_state !! "u-1")
  ∧ is_Some (users (call c scenario_state).2 !! "u-1").
Proof.
  intros c.
  assert (H : is_Some (users scenario_state !! "u-1"))
    by (vm_compute; eauto).
  split; [exact H | exact (proj1 (no_deletion c scenario_state "u-1") H)].
Defined.

(** X5. Stored users, executors, assets and beneficiaries are immutable: a
    call whose minted id is fresh leaves every record already stored in
    these four collections exactly as it was. *)
Theorem stored_records_immutable c st k :
  fresh c st →
  (∀ user, users st !! k = Some user → users (call c st).2 !! k = Some user)
  ∧ (∀ executor, executors st !! k = Some executor →
                 executors (call c st).2 !! k = Some executor)
  ∧ (∀ asset, assetsMap st !! k = Some asset →
              assetsMap (call c st).2 !! k = Some asset)
  ∧ (∀ beneficiary, beneficiariesMap st !! k = Some beneficiary →
                    beneficiariesMap (call c st).2 !! k = Some beneficiary).
Proof.
  intros Hfresh.
  destruct (call_effect c st); cbn in *; repeat split; try done;
    intros r Hr; rewrite lookup_insert_ne by congruence; done.
Qed.

Lemma stored_records_immutable_witness :
  let c := AddAsset (mkEnv "a-2" 20) (AssetPayload.mk "w-1" "Car" 10000) in
  fresh c scenario_state
  ∧ assetsMap (call c scenario_state).2 !! "a-1"
    = Some (Asset.mk "a-1" "w-1" "House" 500000 13).
Proof.
  intros c.
  assert (H : fresh c scenario_state) by (vm_compute; reflexivity).
  split; [exact H|].
  apply (proj1 (proj2 (proj2 (stored_records_immutable c scenario_state "a-1" H)))).
  vm_compute. reflexivity.
Defined.

(** X6. A stored will only grows: after a call whose minted id is fresh the
    will is still stored under its key with the same [id], [userId],
    [createdAt] and [isExecuted], and its old [assets] and [beneficiaries]
    lists are prefixes of the new ones. *)
Theorem will_append_only c st k will :
  fresh c st →
  wills st !! k = Some will →
  ∃ will', wills (call c st).2 !! k = Some will'
    ∧ Will.id will' = Will.id will
    ∧ Will.userId will' = Will.userId will
    ∧ Will.createdAt will' = Will.createdAt will
    ∧ Will.isExecuted will' = Will.isExecuted will
    ∧ Will.assets will `prefix_of` Will.assets will'
    ∧ Will.beneficiaries will `prefix_of` Will.beneficiaries will'.
Proof.
  intros Hfresh Hwill.
  assert (Hsame : ∃ will', Some will = Some will'
    ∧ Will.id will' = Will.id will
    ∧ Will.userId will' = Will.userId will
    ∧ Will.createdAt will' = Will.createdAt will
    ∧ Will.isExecuted will' = Will.isExecuted will
    ∧ Will.assets will `prefix_of` Will.assets will'
    ∧ Will.beneficiaries will `prefix_of` Will.beneficiaries will')
    by (by exists will).
  destruct (call_effect c st)
    as [c|ic payload user Hid|ic payload executor Hid
       |ic payload will0 Hid Hassets Hbeneficiaries Huser Hexecutor
       |ic payload will0 asset Hwill0 Hid Howner
       |ic payload will0 beneficiary Hwill0 Hid Howner
       |payload will0 Hwill0 Hexecutor];
    cbn in *; rewrite ?Hwill; try exact Hsame.
  - rewrite lookup_insert_ne, Hwill by congruence. exact Hsame.
  - destruct (decide (AssetPayload.willId payload = k)) as [<-|Hne].
    + rewrite lookup_insert_eq. assert (will0 = will) as -> by congruence.
      eexists. split; [done|]. cbn. repeat split; try done.
      by apply prefix_app_r.
    + rewrite lookup_insert_ne, Hwill by done. exact Hsame.
  - destruct (decide (BeneficiaryPayload.willId payload = k)) as [<-|Hne].
    + rewrite lookup_insert_eq. assert (will0 = will) as -> by congruence.
      eexists. split; [done|]. cbn. repeat split; try done.
      by apply prefix_app_r.
    + rewrite lookup_insert_ne, Hwill by done. exact Hsame.
  - destruct (decide (AssignExecutorPayload.willId payload = k)) as [<-|Hne].
    + rewrite lookup_insert_eq. assert (will0 = will) as -> by congruence.
      eexists. split; [done|]. cbn. repeat split; done.
    + rewrite lookup_insert_ne, Hwill by done. exact Hsame.
Qed.

Lemma will_append_only_witness :
  let c := AddAsset (mkEnv "a-2" 20) (AssetPayload.mk "w-1" "Car" 10000) in
  fresh c scenario_state
  ∧ ∃ will', wills (call c scenario_state).2 !! "w-1" = Some will'
      ∧ [Asset.mk "a-1" "w-1" "House" 500000 13] `prefix_of` Will.assets will'.
Proof.
  intros c.
  assert (H : fresh c scenario_state) by (vm_compute; reflexivity).
  split; [exact H|].
  destruct (will_append_only c scenario_state "w-1"
              {| Will.id := "w-1"; Will.userId := "u-1";
                 Will.executorId := "e-2";
                 Will.assets := [Asset.mk "a-1" "w-1" "House" 500000 13];
                 Will.beneficiaries :=
                   [Beneficiary.mk "b-1" "w-1" "Carol" 100 14];
                 Will.createdAt := 12; Will.isExecuted := false |} H)
    as (will' & Hw & _ & _ & _ & _ & Hp & _).
  - vm_compute. reflexivity.
  - exists will'. split; [exact Hw | exact Hp].
Defined.

(** ** Single calls and how they compose *)

(** X7. addBeneficiary postcondition: when the will id of the payload is
    present, [addBeneficiary] succeeds; [getWill] then returns the will with
    one new beneficiary appended, carrying the payload's name and share, and
    the standalone beneficiaries collection holds the same record under the
    minted id. *)
Theorem addBeneficiary_postcondition ic payload st will :
  wills st !! BeneficiaryPayload.willId payload = Some will →
  ∃ st' will' beneficiary,
    addBeneficiary ic payload st = (Ok null, st')
    ∧ getWill (BeneficiaryPayload.willId payload) st' = (Ok will', st')
    ∧ Will.beneficiaries will' = Will.beneficiaries will ++ [beneficiary]
    ∧ Will.assets will' = Will.assets will
    ∧ Beneficiary.name beneficiary = BeneficiaryPayload.name payload
    ∧ Beneficiary.share beneficiary = BeneficiaryPayload.share payload
    ∧ Beneficiary.willId beneficiary = BeneficiaryPayload.willId payload
    ∧ Beneficiary.id beneficiary = uuidv4 ic
    ∧ Beneficiary.createdAt beneficiary = time ic
    ∧ beneficiariesMap st' !! Beneficiary.id beneficiary = Some beneficiary
    ∧ assetsMap st' = assetsMap st.
Proof.
  intros Hwill. rewrite addBeneficiary_eq, Hwill. cbn zeta.
  set (beneficiary := {| Beneficiary.id := uuidv4 ic;
                         Beneficiary.willId := BeneficiaryPayload.willId payload |}).
  eexists _, (Will.push_beneficiary beneficiary will), beneficiary.
  split; [reflexivity|].
  rewrite getWill_eq. cbn [wills beneficiariesMap assetsMap].
  rewrite !lookup_insert_eq. cbn. repeat split.
Qed.

Lemma addBeneficiary_postcondition_witness :
  ∃ st' will' beneficiary,
    addBeneficiary (mkEnv "b-2" 21) (BeneficiaryPayload.mk "w-1" "Dave" 50)
      scenario_state = (Ok null, st')
    ∧ getWill "w-1" st' = (Ok will', st')
    ∧ Will.beneficiaries will'
      = [Beneficiary.mk "b-1" "w-1" "Carol" 100 14] ++ [beneficiary]
    ∧ beneficiariesMap st' !! Beneficiary.id beneficiary = Some beneficiary.
Proof.
  destruct (addBeneficiary_postcondition (mkEnv "b-2" 21)
              (BeneficiaryPayload.mk "w-1" "Dave" 50) scenario_state
              {| Will.id := "w-1"; Will.userId := "u-1";
                 Will.executorId := "e-2";
                 Will.assets := [Asset.mk "a-1" "w-1" "House" 500000 13];
                 Will.beneficiaries :=
                   [Beneficiary.mk "b-1" "w-1" "Carol" 100 14];
                 Will.createdAt := 12; Will.isExecuted := false |})
    as (st' & will' & b & H1 & H2 & H3 & _ & _ & _ & _ & _ & _ & H4 & _).
  - vm_compute. reflexivity.
  - exists st', will', b. repeat split; assumption.
Defined.

(** X8. createUser then getUser: with a non-empty name and email
    [createUser] returns a user with the minted id, the payload's name and
    email and the current time; [getUser] on that id then returns the same
    record; every other user and the other four collections are as
    before. *)
Theorem createUser_then_getUser ic payload st :
  UserPayload.name payload ≠ "" →
  UserPayload.email payload ≠ "" →
  let user := {| User.id := uuidv4 ic;
                 User.name := UserPayload.name payload;
                 User.email := UserPayload.email payload;
                 User.createdAt := time ic |} in
  ∃ st', createUser ic payload st = (Ok user, st')
    ∧ getUser (uuidv4 ic) st' = (Ok user, st')
    ∧ (∀ k, k ≠ uuidv4 ic → users st' !! k = users st !! k)
    ∧ wills st' = wills st ∧ executors st' = executors st
    ∧ assetsMap st' = assetsMap st
    ∧ beneficiariesMap st' = beneficiariesMap st.
Proof.
  intros Hname Hemail user. rewrite createUser_eq.
  destruct (UserPayload.name payload); [done|].
  destruct (UserPayload.email payload); [done|]. cbn.
  eexists. split; [reflexivity|]. rewrite getUser_eq. cbn.
  rewrite lookup_insert_eq. repeat split.
  intros k Hk. by rewrite lookup_insert_ne.
Qed.

Lemma createUser_then_getUser_witness :
  ∃ st',
    createUser (mkEnv "u-2" 40) (UserPayload.mk "Eve" "eve@x.com") scenario_state
      = (Ok (User.mk "u-2" "Eve" "eve@x.com" 40), st')
    ∧ getUser "u-2" st' = (Ok (User.mk "u-2" "Eve" "eve@x.com" 40), st').
Proof.
  destruct (createUser_then_getUser (mkEnv "u-2" 40)
              (UserPayload.mk "Eve" "eve@x.com") scenario_state)
    as (st' & H1 & H2 & _).
  - cbn. discriminate.
  - cbn. discriminate.
  - exists st'. split; [exact H1 | exact H2].
Defined.

(** X9. createExecutor then getExecutor: with a non-empty name and contact
    [createExecutor] returns an executor with the minted id, the payload's
    name and contact and the current time; [getExecutor] on that id then
    returns the same record; every other executor and the other four
    collections are as before. *)
Theorem createExecutor_then_getExecutor ic payload st :
  ExecutorPayload.name payload ≠ "" →
  ExecutorPayload.contact payload ≠ "" →
  let executor := {| Executor.id := uuidv4 ic;
                     Executor.name := ExecutorPayload.name payload;
                     Executor.contact := ExecutorPayload.contact payload;
                     Executor.createdAt := time ic |} in
  ∃ st', createExecutor ic payload st = (Ok executor, st')
    ∧ getExecutor (uuidv4 ic) st' = (Ok executor, st')
    ∧ (∀ k, k ≠ uuidv4 ic → executors st' !! k = executors st !! k)
    ∧ users st' = users st ∧ wills st' = wills st
    ∧ assetsMap st' = assetsMap st
    ∧ beneficiariesMap st' = beneficiariesMap st.
Proof.
  intros Hname Hcontact executor. rewrite createExecutor_eq.
  destruct (ExecutorPayload.name payload); [done|].
  destruct (ExecutorPayload.contact payload); [done|]. cbn.
  eexists. split; [reflexivity|]. rewrite getExecutor_eq. cbn.
  rewrite lookup_insert_eq. repeat split.
  intros k Hk. by rewrite lookup_insert_ne.
Qed.

Lemma createExecutor_then_getExecutor_witness :
  ∃ st',
    createExecutor (mkEnv "e-3" 41) (ExecutorPayload.mk "Fay" "fay@x.com")
      scenario_state
      = (Ok (Executor.mk "e-3" "Fay" "fay@x.com" 41), st')
    ∧ getExecutor "e-3" st' = (Ok (Executor.mk "e-3" "Fay" "fay@x.com" 41), st').
Proof.
  destruct (createExecutor_then_getExecutor (mkEnv "e-3" 41)
              (ExecutorPayload.mk "Fay" "fay@x.com") scenario_state)
    as (st' & H1 & H2 & _).
  - cbn. discriminate.
  - cbn. discriminate.
  - exists st'. split; [exact H1 | exact H2].
Defined.

Ltac lookup_case :=
  unfold is_Some; repeat split; try done; try (by eauto);
  try (by intros [[? ?] ?]; congruence);
  try (by intros [[? ?] [? ?]]; congruence);
  try (by intros [? ?]; congruence).

(** X10. Which lookup failure is reported.  createWill answers
    "User not found." exactly when the user is missing (whether or not the
    executor is) and "Executor not found." exactly when the user is there
    and the executor is not; assignExecutor answers "Will not found."
    exactly when the will is missing and "Executor not found." exactly when
    the will is there and the executor is not; addAsset and addBeneficiary
    answer "Will not found." exactly when the will is missing, and succeed
    otherwise. *)
Theorem lookup_failures st :
  (∀ ic payload,
     ((createWill ic payload st).1 = Err "User not found."
      ↔ users st !! WillPayload.userId payload = None)
     ∧ ((createWill ic payload st).1 = Err "Executor not found."
        ↔ is_Some (users st !! WillPayload.userId payload)
          ∧ executors st !! WillPayload.executorId payload = None))
  ∧ (∀ payload,
       ((assignExecutor payload st).1 = Err "Will not found."
        ↔ wills st !! AssignExecutorPayload.willId payload = None)
       ∧ ((assignExecutor payload st).1 = Err "Executor not found."
          ↔ is_Some (wills st !! AssignExecutorPayload.willId payload)
            ∧ executors st !! AssignExecutorPayload.executorId payload = None)
       ∧ ((assignExecutor payload st).1 = Ok null
          ↔ is_Some (wills st !! AssignExecutorPayload.willId payload)
            ∧ is_Some (executors st
                         !! AssignExecutorPayload.executorId payload)))
  ∧ (∀ ic payload,
       ((addAsset ic payload st).1 = Err "Will not found."
        ↔ wills st !! AssetPayload.willId payload = None)
       ∧ ((addAsset ic payload st).1 = Ok null
          ↔ is_Some (wills st !! AssetPayload.willId payload)))
  ∧ (∀ ic payload,
       ((addBeneficiary ic payload st).1 = Err "Will not found."
        ↔ wills st !! BeneficiaryPayload.willId payload = None)
       ∧ ((addBeneficiary ic payload st).1 = Ok null
          ↔ is_Some (wills st !! BeneficiaryPayload.willId payload))).
Proof.
  split; [|split; [|split]].
  - intros ic payload. rewrite createWill_eq.
    destruct (users st !! _); [destruct (executors st !! _)|]; cbn;
      lookup_case.
  - intros payload. rewrite assignExecutor_eq.
    destruct (wills st !! _); [destruct (executors st !! _)|]; cbn;
      lookup_case.
  - intros ic payload. rewrite addAsset_eq.
    destruct (wills st !! _); cbn; lookup_case.
  - intros ic payload. rewrite addBeneficiary_eq.
    destruct (wills st !! _); cbn; lookup_case.
Qed.

(** X11. assignExecutor keeps no history: with the will and both executors
    present, assigning one executor and then another leaves the storage
    exactly as assigning the second alone does; in particular assigning the
    same executor twice is the same as assigning it once. *)
Theorem assignExecutor_last_wins willId e1 e2 st :
  is_Some (wills st !! willId) →
  is_Some (executors st !! e1) →
  is_Some (executors st !! e2) →
  let first := AssignExecutorPayload.mk willId e1 in
  let second := AssignExecutorPayload.mk willId e2 in
  (assignExecutor first st).1 = Ok null
  ∧ assignExecutor second (assignExecutor first st).2
    = assignExecutor second st.
Proof.
  intros [will Hwill] [x1 H1] [x2 H2] first second. subst first second.
  rewrite !assignExecutor_eq. cbn. rewrite Hwill, H1. cbn.
  rewrite lookup_insert_eq, H2. split; [done|].
  by rewrite insert_insert_eq.
Qed.

Lemma assignExecutor_last_wins_witness :
  assignExecutor (AssignExecutorPayload.mk "w-1" "e-2")
    (assignExecutor (AssignExecutorPayload.mk "w-1" "e-1") scenario_state).2
  = assignExecutor (AssignExecutorPayload.mk "w-1" "e-2") scenario_state.
Proof.
  apply (assignExecutor_last_wins "w-1" "e-1" "e-2" scenario_state);
    vm_compute; eauto.
Defined.

(** X12. addAsset and addBeneficiary commute: when both target wills are
    present (the same will or two different ones), both calls succeed in
    either order and the two orders leave the same storage. *)
Theorem addAsset_addBeneficiary_commute ica pa icb pb st :
  is_Some (wills st !! AssetPayload.willId pa) →
  is_Some (wills st !! BeneficiaryPayload.willId pb) →
  (addAsset ica pa st).1 = Ok null
  ∧ (addBeneficiary icb pb (addAsset ica pa st).2).1 = Ok null
  ∧ (addBeneficiary icb pb st).1 = Ok null
  ∧ (addAsset ica pa (addBeneficiary icb pb st).2).1 = Ok null
  ∧ (addBeneficiary icb pb (addAsset ica pa st).2).2
    = (addAsset ica pa (addBeneficiary icb pb st).2).2.
Proof.
  intros [wa Ha] [wb Hb]. rewrite !addAsset_eq, !addBeneficiary_eq.
  rewrite Ha, Hb. cbn.
  destruct (decide (AssetPayload.willId pa = BeneficiaryPayload.willId pb))
    as [Heq|Hne].
  - rewrite <-Heq in *. assert (wb = wa) as -> by congruence.
    rewrite !lookup_insert_eq. cbn. rewrite !insert_insert_eq.
    repeat split.
  - rewrite !lookup_insert_ne, Ha, Hb by done. cbn.
    repeat split. f_equal. by apply insert_insert_ne.
Qed.

Lemma addAsset_addBeneficiary_commute_witness :
  let ica := mkEnv "a-2" 20 in
  let pa := AssetPayload.mk "w-1" "Car" 10000 in
  let icb := mkEnv "b-2" 21 in
  let pb := BeneficiaryPayload.mk "w-1" "Dave" 50 in
  (addBeneficiary icb pb (addAsset ica pa scenario_state).2).2
  = (addAsset ica pa (addBeneficiary icb pb scenario_state).2).2.
Proof.
  intros ica pa icb pb.
  apply (addAsset_addBeneficiary_commute ica pa icb pb scenario_state);
    vm_compute; eauto.
Defined.

Lemma listing_insert {V} message (m : gmap string V) k v :
  ∃ l, listing message (<[k := v]> m) = Ok l ∧ v ∈ l.
Proof.
  unfold listing.
  destruct ((map_to_list (<[k := v]> m)).*2) as [|x l] eqn:Hl.
  - apply records_nil in Hl. by apply insert_non_empty in Hl.
  - eexists. split; [done|]. rewrite <-Hl. apply elem_of_records.
    exists k. apply lookup_insert_eq.
Qed.

(** X13. Create, then list: after a successful createUser, createExecutor
    or createWill the matching getAll* call succeeds (the collection is not
    empty) and the list it returns contains the record just returned. *)
Theorem create_then_list ic st :
  (∀ payload user,
     (createUser ic payload st).1 = Ok user →
     ∃ l, (getAllUsers (createUser ic payload st).2).1 = Ok l ∧ user ∈ l)
  ∧ (∀ payload executor,
       (createExecutor ic payload st).1 = Ok executor →
       ∃ l, (getAllExecutors (createExecutor ic payload st).2).1 = Ok l
            ∧ executor ∈ l)
  ∧ (∀ payload will,
       (createWill ic payload st).1 = Ok will →
       ∃ l, (getAllWills (createWill ic payload st).2).1 = Ok l ∧ will ∈ l).
Proof.
  split; [|split]; intros payload r.
  - rewrite createUser_eq, getAllUsers_eq. destruct (_ || _); [done|]. cbn.
    intros [= <-]. apply listing_insert.
  - rewrite createExecutor_eq, getAllExecutors_eq.
    destruct (_ || _); [done|]. cbn. intros [= <-]. apply listing_insert.
  - rewrite createWill_eq, getAllWills_eq.
    destruct (users st !! _); [|done]. destruct (executors st !! _); [|done].
    cbn. intros [= <-]. apply listing_insert.
Qed.

Lemma create_then_list_witness :
  let ic := mkEnv "u-1" 1 in
  let payload := UserPayload.mk "Alice" "alice@x.com" in
  ∃ l, (getAllUsers (createUser ic payload init).2).1 = Ok l
       ∧ User.mk "u-1" "Alice" "alice@x.com" 1 ∈ l.
Proof.
  intros ic payload.
  apply (proj1 (create_then_list ic init) payload). reflexivity.
Defined.

Lemma query_state c st : is_query c = true → (call c st).2 = st.
Proof. destruct c; try done; intros _; by unfold_call. Qed.

(** X14. Queries never write: any sequence of the six query methods leaves
    all five collections as they were, so every call made after it answers
    and acts exactly as it would have before it. *)
Theorem queries_never_write qs st :
  forallb is_query qs = true →
  exec qs st = st ∧ ∀ c, call c (exec qs st) = call c st.
Proof.
  intros Hqs. assert (Hexec : exec qs st = st).
  { revert st. induction qs as [|q qs IH]; intros st; [done|].
    cbn in *. apply andb_prop in Hqs as [Hq Hqs].
    rewrite (query_state q st Hq). by apply IH. }
  split; [done|]. intros c. by rewrite Hexec.
Qed.

Lemma queries_never_write_witness :
  exec [GetAllUsers; GetWill "w-1"; GetAllWills; GetExecutor "e-404";
        GetAllExecutors; GetUser "u-1"] scenario_state
  = scenario_state.
Proof.
  apply (queries_never_write
           [GetAllUsers; GetWill "w-1"; GetAllWills; GetExecutor "e-404";
            GetAllExecutors; GetUser "u-1"] scenario_state).
  reflexivity.
Defined.

(** ** Runs with fresh ids *)

Lemma reachable_exec cs : reachable (exec cs init).
Proof. by exists cs. Qed.

Lemma created_executors_step c st :
  fresh c st →
  (map_to_list (executors (call c st).2)).*2
  ≡ₚ (map_to_list (executors st)).*2 ++ created_executor c st.
Proof.
  intros Hfresh. destruct c; cbn [created_executor]; unfold_call;
    rewrite ?app_nil_r; try done.
  - by destruct (_ || _).
  - destruct (_ || _); cbn; [by rewrite app_nil_r|].
    rewrite map_to_list_insert by exact Hfresh.
    rewrite fmap_cons. cbn. by rewrite (Permutation_app_comm _ [_]).
  - destruct (users st !! _); [|done]. by destruct (executors st !! _).
  - by destruct (wills st !! _).
  - by destruct (wills st !! _).
  - destruct (wills st !! _); [|done]. by destruct (executors st !! _).
Qed.

Lemma created_executors_run cs st :
  fresh_run cs st →
  (map_to_list (executors (exec cs st))).*2
  ≡ₚ (map_to_list (executors st)).*2 ++ created_executors cs st.
Proof.
  revert st. induction cs as [|c cs IH]; intros st; cbn.
  - by rewrite app_nil_r.
  - intros [Hc Hcs]. rewrite (IH _ Hcs), (created_executors_step c st Hc).
    by rewrite app_assoc.
Qed.

(** X15. Created users stay retrievable: after a run from the initial
    state with fresh ids, [getUser id] returns a user exactly when that
    user was returned by an earlier createUser and has that id, and it
    answers "User not found." exactly when no created user has that id. *)
Theorem created_users_retrievable cs id :
  fresh_run cs init →
  (∀ user, (getUser id (exec cs init)).1 = Ok user
           ↔ user ∈ created_users cs init ∧ User.id user = id)
  ∧ ((getUser id (exec cs init)).1 = Err "User not found."
     ↔ ∀ user, user ∈ created_users cs init → User.id user ≠ id).
Proof.
  intros Hfresh.
  pose proof (created_users_run cs init Hfresh) as Hperm.
  unfold init at 2 in Hperm. cbn in Hperm.
  rewrite map_to_list_empty in Hperm. cbn in Hperm.
  destruct (keyed_reachable _ (reachable_exec cs)) as [Hkey _ _ _ _].
  assert (Hin : ∀ user, users (exec cs init) !! id = Some user
                        ↔ user ∈ created_users cs init ∧ User.id user = id).
  { intros user. rewrite <-Hperm, elem_of_records. split.
    - intros Hu. split; [by eexists|by eapply Hkey].
    - intros [[k Hk] <-]. by rewrite (Hkey _ _ Hk). }
  rewrite getUser_eq. cbn [fst]. split.
  - intros user. rewrite <-Hin.
    destruct (users (exec cs init) !! id); split; congruence.
  - destruct (users (exec cs init) !! id) as [u|] eqn:Hu.
    + split; [done|]. intros Hnone.
      destruct (proj1 (Hin u) eq_refl) as [Hcreated Hid].
      by apply Hnone in Hcreated.
    + split; [|done]. intros _ user Huser Hid.
      assert (None = Some user) by (by apply Hin). done.
Qed.

Lemma created_users_retrievable_witness :
  fresh_run scenario init
  ∧ ((getUser "u-1" scenario_state).1 = Ok (User.mk "u-1" "Alice" "alice@x.com" 10)
     ↔ User.mk "u-1" "Alice" "alice@x.com" 10
         ∈ [User.mk "u-1" "Alice" "alice@x.com" 10]
       ∧ "u-1" = "u-1").
Proof.
  assert (H : fresh_run scenario init) by (vm_compute; tauto).
  split; [exact H|].
  exact (proj1 (created_users_retrievable scenario "u-1" H)
           (User.mk "u-1" "Alice" "alice@x.com" 10)).
Defined.

(** X16. Created executors stay retrievable: after a run from the initial
    state with fresh ids, [getExecutor id] returns an executor exactly when
    that executor was returned by an earlier createExecutor and has that id,
    and getAllExecutors returns a permutation of the executors created so
    far. *)
Theorem created_executors_retrievable cs :
  fresh_run cs init →
  (∀ id executor,
     (getExecutor id (exec cs init)).1 = Ok executor
     ↔ executor ∈ created_executors cs init ∧ Executor.id executor = id)
  ∧ (∀ l, (getAllExecutors (exec cs init)).1 = Ok l →
          l ≡ₚ created_executors cs init).
Proof.
  intros Hfresh.
  pose proof (created_executors_run cs init Hfresh) as Hperm.
  unfold init at 2 in Hperm. cbn in Hperm.
  rewrite map_to_list_empty in Hperm. cbn in Hperm.
  destruct (keyed_reachable _ (reachable_exec cs)) as [_ Hkey _ _ _].
  split.
  - intros id executor. rewrite getExecutor_eq. cbn [fst].
    rewrite <-Hperm, elem_of_records. split.
    + destruct (executors (exec cs init) !! id) as [e|] eqn:He; [|done].
      intros [= ->]. split; [by eexists|by eapply Hkey].
    + intros [[k Hk] <-]. by rewrite (Hkey _ _ Hk), Hk.
  - intros l. rewrite getAllExecutors_eq. cbn [fst]. unfold listing.
    destruct ((map_to_list (executors (exec cs init))).*2); [done|].
    by intros [= <-].
Qed.

Lemma created_executors_retrievable_witness :
  fresh_run scenario init
  ∧ ∀ l, (getAllExecutors scenario_state).1 = Ok l →
         l ≡ₚ [Executor.mk "e-1" "Bob" "bob@x.com" 11;
               Executor.mk "e-2" "Dan" "dan@x.com" 15].
Proof.
  assert (H : fresh_run scenario init) by (vm_compute; tauto).
  split; [exact H|].
  exact (proj2 (created_executors_retrievable scenario H)).
Defined.

Lemma ids_of_records {V} (id : V → string) (m : gmap string V) :
  (∀ k v, m !! k = Some v → id v = k) →
  id <$> (map_to_list m).*2 = (map_to_list m).*1.
Proof.
  intros Hkey.
  assert (Hall : ∀ kv, kv ∈ map_to_list m → id kv.2 = kv.1).
  { intros [k v] Hkv. by apply Hkey, elem_of_map_to_list. }
  induction (map_to_list m) as [|[k v] l IH]; [done|]. cbn.
  f_equal.
  - apply (Hall (k, v)). left.
  - apply IH. intros kv Hkv. apply Hall. by right.
Qed.

Lemma NoDup_ids_filter {V} (id : V → string) (P : V → Prop)
    `{!∀ x, Decision (P x)} (m : gmap string V) (log : list V) :
  (∀ k v, m !! k = Some v → id v = k) →
  (map_to_list m).*2 ≡ₚ log →
  NoDup (id <$> filter P log).
Proof.
  intros Hkey Hlog.
  apply (sublist_NoDup _ (id <$> log)).
  - rewrite <-Hlog, ids_of_records by done. apply NoDup_fst_map_to_list.
  - apply fmap_sublist, sublist_filter.
Qed.

(** X17. Embedded records have distinct ids: after a run from the initial
    state with fresh ids, no will embeds two assets with the same id, nor
    two beneficiaries with the same id. *)
Theorem embedded_ids_distinct cs :
  fresh_run cs init →
  ∀ k will, wills (exec cs init) !! k = Some will →
    NoDup (Asset.id <$> Will.assets will)
    ∧ NoDup (Beneficiary.id <$> Will.beneficiaries will).
Proof.
  intros Hfresh k will Hwill.
  destruct (consistent_run cs init [] [] consistent_init Hfresh)
    as [_ Hak Hbk Hae Hbe _ _ Has Hbs].
  cbn [app] in *.
  rewrite (Hae _ _ Hwill), (Hbe _ _ Hwill). split.
  - by eapply NoDup_ids_filter.
  - by eapply NoDup_ids_filter.
Qed.

Lemma embedded_ids_distinct_witness :
  fresh_run scenario init
  ∧ ∀ k will, wills scenario_state !! k = Some will →
      NoDup (Asset.id <$> Will.assets will)
      ∧ NoDup (Beneficiary.id <$> Will.beneficiaries will).
Proof.
  assert (H : fresh_run scenario init) by (vm_compute; tauto).
  split; [exact H | exact (embedded_ids_distinct scenario H)].
Defined.

(** X18. The life of a will: with the user and two executors present,
    createWill, then addAsset and addBeneficiary on the new will's id, then
    assignExecutor to the second executor all succeed, and getWill then
    returns the will with exactly that one asset, that one beneficiary, the
    second executor, the creation time of the will and
    [isExecuted = false]. *)
Theorem will_lifecycle icw ica icb payload name value bname share e2 st :
  is_Some (users st !! WillPayload.userId payload) →
  is_Some (executors st !! WillPayload.executorId payload) →
  is_Some (executors st !! e2) →
  let willId := uuidv4 icw in
  let st1 := (createWill icw payload st).2 in
  let st2 := (addAsset ica (AssetPayload.mk willId name value) st1).2 in
  let st3 :=
    (addBeneficiary icb (BeneficiaryPayload.mk willId bname share) st2).2 in
  let st4 := (assignExecutor (AssignExecutorPayload.mk willId e2) st3).2 in
  (addAsset ica (AssetPayload.mk willId name value) st1).1 = Ok null
  ∧ (addBeneficiary icb (BeneficiaryPayload.mk willId bname share) st2).1
    = Ok null
  ∧ (assignExecutor (AssignExecutorPayload.mk willId e2) st3).1 = Ok null
  ∧ (getWill willId st4).1
    = Ok {| Will.id := willId;
            Will.userId := WillPayload.userId payload;
            Will.executorId := e2;
            Will.assets :=
              [{| Asset.id := uuidv4 ica; Asset.willId := willId;
                  Asset.name := name; Asset.value := value;
                  Asset.createdAt := time ica |}];
            Will.beneficiaries :=
              [{| Beneficiary.id := uuidv4 icb; Beneficiary.willId := willId;
                  Beneficiary.name := bname; Beneficiary.share := share;
                  Beneficiary.createdAt := time icb |}];
            Will.createdAt := time icw;
            Will.isExecuted := false |}.
Proof.
  intros [u Hu] [e He] [x2 H2] willId st1 st2 st3 st4.
  subst st4 st3 st2 st1 willId.
  rewrite createWill_eq, Hu, He. cbn.
  rewrite !addAsset_eq. cbn. rewrite lookup_insert_eq. cbn.
  rewrite !addBeneficiary_eq. cbn. rewrite lookup_insert_eq. cbn.
  rewrite !assignExecutor_eq. cbn. rewrite lookup_insert_eq, H2. cbn.
  rewrite getWill_eq. cbn. rewrite lookup_insert_eq. done.
Qed.

Lemma will_lifecycle_witness :
  (getWill "w-9"
     (assignExecutor (AssignExecutorPayload.mk "w-9" "e-2")
        (addBeneficiary (mkEnv "b-9" 53) (BeneficiaryPayload.mk "w-9" "Carol" 100)
           (addAsset (mkEnv "a-9" 52) (AssetPayload.mk "w-9" "House" 500000)
              (createWill (mkEnv "w-9" 51) (WillPayload.mk "u-1" "e-1")
                 scenario_state).2).2).2).2).1
  = Ok {| Will.id := "w-9"; Will.userId := "u-1"; Will.executorId := "e-2";
          Will.assets := [Asset.mk "a-9" "w-9" "House" 500000 52];
          Will.beneficiaries := [Beneficiary.mk "b-9" "w-9" "Carol" 100 53];
          Will.createdAt := 51; Will.isExecuted := false |}.
Proof.
  apply (will_lifecycle (mkEnv "w-9" 51) (mkEnv "a-9" 52) (mkEnv "b-9" 53)
           (WillPayload.mk "u-1" "e-1") "House" 500000 "Carol" 100 "e-2"
           scenario_state); vm_compute; eauto.
Defined.

Lemma known_message_kind (m : text) :
  In m ["Name and email are required."; "Name and contact are required.";
        "User not found."; "Executor not found."; "Will not found.";
        "No users found."; "No executors found."; "No wills found."] →
  is_Some (error_kind m).
Proof.
  intros Hm. cbn in Hm.
  repeat (destruct Hm as [<-|Hm]; [by eexists|]). done.
Qed.

Ltac message_case :=
  cbn; intros [= <-]; (split; [auto|]); apply known_message_kind; cbn; tauto.

(** X19. The error messages, method by method: a failing call answers with
    one of the fixed messages of its method and no other; each of them has
    one of the three error kinds. *)
Theorem error_messages c st message :
  reply_message (call c st).1 = Some message →
  match c with
  | CreateUser _ _ => message = "Name and email are required."
  | CreateExecutor _ _ => message = "Name and contact are required."
  | CreateWill _ _ =>
      message = "User not found." ∨ message = "Executor not found."
  | AddAsset _ _ | AddBeneficiary _ _ => message = "Will not found."
  | AssignExecutor _ =>
      message = "Will not found." ∨ message = "Executor not found."
  | GetUser _ => message = "User not found."
  | GetAllUsers => message = "No users found."
  | GetExecutor _ => message = "Executor not found."
  | GetAllExecutors => message = "No executors found."
  | GetWill _ => message = "Will not found."
  | GetAllWills => message = "No wills found."
  end
  ∧ is_Some (error_kind message).
Proof.
  destruct c; unfold_call; unfold listing.
  - destruct (_ || _); message_case.
  - destruct (_ || _); message_case.
  - destruct (users st !! _); [destruct (executors st !! _)|]; message_case.
  - destruct (wills st !! _); message_case.
  - destruct (wills st !! _); message_case.
  - destruct (wills st !! _); [destruct (executors st !! _)|]; message_case.
  - destruct (users st !! _); message_case.
  - destruct ((map_to_list (users st)).*2); message_case.
  - destruct (executors st !! _); message_case.
  - destruct ((map_to_list (executors st)).*2); message_case.
  - destruct (wills st !! _); message_case.
  - destruct ((map_to_list (wills st)).*2); message_case.
Qed.

Lemma error_messages_witness :
  let c := AssignExecutor (AssignExecutorPayload.mk "w-1" "e-404") in
  reply_message (call c scenario_state).1 = Some "Executor not found."
  ∧ is_Some (error_kind "Executor not found.").
Proof.
  intros c.
  assert (H : reply_message (call c scenario_state).1
              = Some "Executor not found.") by (vm_compute; reflexivity).
  split; [exact H|].
  exact (proj2 (error_messages c scenario_state "Executor not found." H)).
Defined.
